(** * A Lisp-family interpreter (mutable.py): reader, environments, evaluator

    The development embeds [src/mutable.py]: the tokenizer and the
    recursive-descent reader of class [Sexp], the parent-linked environment
    frames of class [Env], the evaluator [Sexp.eval] and the closures of
    class [Procedure].

    Conventions of the embedding.
    - A Python [str] is a [string]; a character is a code point below 256.
    - A Python [int] is a [Z] (unbounded, as in the host).
    - Python floats, the contents of the [math] module and the operators on
      them belong to the host, not to this repository: they are fields of
      the class [Host], and every statement holds for every host.
    - A raised exception is a value of [exn]; a Python call that may raise
      returns a [result].  Recursive Python functions take a recursion
      budget (fuel), one unit per nested call.
    - Python objects with identity that the interpreter mutates and shares
      (the [Env] frames) live in a store indexed by [loc].

    Organisation: the definitions come first (host primitives, the
    interpreter, a reference host, the vocabulary of the statements), then
    the properties of the tokenizer, of the reader and of the evaluator, and
    last the closed examples, evaluated on the reference host. *)

From Stdlib Require Import ZArith Lia Ascii String SpecFloat.
From stdpp Require Import base option list strings gmap.

Set Warnings "-register-all".

Open Scope Z_scope.
Open Scope string_scope.
Open Scope list_scope.

(** ** Exceptions and results *)

(** The exceptions the interpreter can raise.  [SyntaxError] and
    [AttributeError] are raised by the source itself and carry its message;
    the others are raised by the host's operations (indexing, unpacking,
    hashing, calling, arithmetic). *)
Inductive exn : Type :=
| SyntaxError (msg : string)
| AttributeError (msg : string)
| IndexError (msg : string)
| ValueError
| TypeError
| ZeroDivisionError
| OverflowError.

(** What a call produces: a value, a raised exception, no answer within the
    recursion budget it was given ([OutOfFuel]), or [Stuck] when it is handed
    a store location that holds no frame (no run of the program does that). *)
Inductive result (A : Type) : Type :=
| Ok (a : A)
| Raise (e : exn)
| OutOfFuel
| Stuck.
Arguments Ok {A} a.
Arguments Raise {A} e.
Arguments OutOfFuel {A}.
Arguments Stuck {A}.

(** ** Characters and the host's string primitives *)

Definition code (c : ascii) : N := Ascii.N_of_ascii c.

(** [str.split()] without argument splits on the host's whitespace: in the
    range of one-byte code points these are TAB, LF, VT, FF, CR, the four
    separators FS GS RS US, the space, NEL and the no-break space. *)
Definition is_space (c : ascii) : bool :=
  let n := code c in
  ((9 <=? n) && (n <=? 13) || (28 <=? n) && (n <=? 32) || (n =? 133) || (n =? 160))%N.

Definition is_digit (c : ascii) : bool :=
  let n := code c in ((48 <=? n) && (n <=? 57))%N.

Definition digit_val (c : ascii) : Z := Z.of_N (code c) - 48.

Definition ascii_eqb (a b : ascii) : bool := (code a =? code b)%N.

(** [s.replace(c, r)] for a one-character pattern [c]. *)
Fixpoint replace (c : ascii) (r : string) (s : string) : string :=
  match s with
  | EmptyString => EmptyString
  | String a s' => if ascii_eqb a c then (r ++ replace c r s')%string else String a (replace c r s')
  end.

Definition starts_token (s : string) : bool :=
  match s with
  | EmptyString => false
  | String c _ => negb (is_space c)
  end.

(** [s.split()]: the maximal runs of non-whitespace characters, in order. *)
Fixpoint split (s : string) : list string :=
  match s with
  | EmptyString => []
  | String c s' =>
      if is_space c then split s'
      else if starts_token s' then
        match split s' with
        | t :: ts => String c t :: ts
        | [] => [String c EmptyString]
        end
      else String c EmptyString :: split s'
  end.

(** ** Sexp.tokenize *)

Definition tokenize (s : string) : list string :=
  split (replace ")" " ) " (replace "(" " ( " s)).

(** ** The host's numeric literals: [int(token)] and [float(token)] *)

(** Both builtins first strip the whitespace at the two ends of their
    argument: TAB, LF, VT, FF, CR, the space, NEL and the no-break space
    (not the separators FS GS RS US, at which [str.split] does split). *)
Definition is_literal_space (c : ascii) : bool :=
  let n := code c in
  ((9 <=? n) && (n <=? 13) || (n =? 32) || (n =? 133) || (n =? 160))%N.

Fixpoint lstrip (s : string) : string :=
  match s with
  | String c s' => if is_literal_space c then lstrip s' else s
  | EmptyString => EmptyString
  end.

Fixpoint rstrip (s : string) : string :=
  match s with
  | String c s' =>
      match rstrip s' with
      | EmptyString => if is_literal_space c then EmptyString else String c EmptyString
      | r => String c r
      end
  | EmptyString => EmptyString
  end.

Definition strip (s : string) : string := rstrip (lstrip s).

(** They then accept an optional sign, then digits in which single
    underscores may separate two digits. *)
Definition strip_sign (s : string) : bool * string :=
  match s with
  | String c s' =>
      if ascii_eqb c "-" then (true, s')
      else if ascii_eqb c "+" then (false, s')
      else (false, s)
  | EmptyString => (false, s)
  end.

(** The digits after a first one: value so far, digits read so far, rest. *)
Fixpoint more_digits (acc : Z) (cnt : nat) (s : string) : Z * nat * string :=
  match s with
  | String c s' =>
      if is_digit c then more_digits (10 * acc + digit_val c) (S cnt) s'
      else if ascii_eqb c "_" then
        match s' with
        | String d s'' =>
            if is_digit d then more_digits (10 * acc + digit_val d) (S cnt) s''
            else (acc, cnt, s)
        | EmptyString => (acc, cnt, s)
        end
      else (acc, cnt, s)
  | EmptyString => (acc, cnt, s)
  end.

(** digitpart ::= digit (["_"] digit)* *)
Definition digitpart (s : string) : option (Z * nat * string) :=
  match s with
  | String c s' => if is_digit c then Some (more_digits (digit_val c) 1 s') else None
  | EmptyString => None
  end.

Definition signed (neg : bool) (z : Z) : Z := if neg then - z else z.

(** [int(token)] in base ten; [None] stands for its [ValueError].  The
    bound that recent versions of the host put on the number of digits is
    not modelled. *)
Definition py_int (t : string) : option Z :=
  let '(neg, r) := strip_sign (strip t) in
  match digitpart r with
  | Some (v, _, EmptyString) => Some (signed neg v)
  | _ => None
  end.

(** What [float(token)] reads before rounding: a signed infinity, a
    not-a-number, or the decimal [mantissa * 10 ^ exponent]. *)
Inductive float_literal : Type :=
| LitInf (neg : bool)
| LitNan (neg : bool)
| LitDec (neg : bool) (mantissa : Z) (exponent : Z).

Definition lower (c : ascii) : ascii :=
  let n := code c in
  if ((65 <=? n) && (n <=? 90))%N then Ascii.ascii_of_N (n + 32) else c.

Fixpoint lowercase (s : string) : string :=
  match s with
  | EmptyString => EmptyString
  | String c s' => String (lower c) (lowercase s')
  end.

(** exponent ::= ("e" | "E") [sign] digitpart, then the end of the token. *)
Definition exponent_part (s : string) : option Z :=
  match s with
  | EmptyString => Some 0
  | String c s' =>
      if ascii_eqb (lower c) "e" then
        let '(neg, r) := strip_sign s' in
        match digitpart r with
        | Some (v, _, EmptyString) => Some (signed neg v)
        | _ => None
        end
      else None
  end.

(** number ::= [digitpart] "." digitpart | digitpart ["."], as
    (integer and fraction digits read as one mantissa, fraction digit count,
    rest). *)
Definition number_part (s : string) : option (Z * nat * string) :=
  match digitpart s with
  | Some (ip, _, String c r) =>
      if ascii_eqb c "." then
        match r with
        | String d r' =>
            if is_digit d then
              let '(m, k, rest) := more_digits (10 * ip + digit_val d) 1 r' in
              Some (m, k, rest)
            else Some (ip, 0%nat, r)
        | EmptyString => Some (ip, 0%nat, r)
        end
      else Some (ip, 0%nat, String c r)
  | Some (ip, _, EmptyString) => Some (ip, 0%nat, EmptyString)
  | None =>
      match s with
      | String c r =>
          if ascii_eqb c "." then
            match digitpart r with
            | Some (m, k, rest) => Some (m, k, rest)
            | None => None
            end
          else None
      | EmptyString => None
      end
  end.

(** The syntax [float(token)] accepts; [None] stands for its [ValueError]. *)
Definition py_float_literal (t : string) : option float_literal :=
  let '(neg, r) := strip_sign (strip t) in
  let l := lowercase r in
  if String.eqb l "inf" || String.eqb l "infinity" then Some (LitInf neg)
  else if String.eqb l "nan" then Some (LitNan neg)
  else
    match number_part r with
    | Some (m, k, rest) =>
        match exponent_part rest with
        | Some e => Some (LitDec neg m (e - Z.of_nat k))
        | None => None
        end
    | None => None
    end.

(** ** The host *)

(** The two kinds of host data the interpreter handles but does not define:
    floating-point numbers and the objects of the [math] module. *)
Class HostTypes : Type := {
  hfloat : Type;
  hobject : Type
}.

Section Data.
Context `{HostTypes}.

(** An expression, as [Sexp.parse] builds it: a Python [int], [float], [str]
    (a Symbol) or [list]. *)
Inductive sexp : Type :=
| Int (z : Z)
| Float (f : hfloat)
| Sym (s : string)
| List (l : list sexp).

(** The entries of the primitive table of [standard_env]. *)
Inductive prim : Type :=
| OpAdd | OpSub | OpMul | OpTruediv
| OpGt | OpLt | OpGe | OpLe | OpEq
| OpPrint
| OpAnd | OpOr | OpNot.

(** A location of the store: the identity of an [Env] object. *)
Definition loc : Type := nat.

(** A value: what [Sexp.eval] returns and what frames hold.  [VProc] is a
    [Procedure] object: its identity, then [parms], [body] and [env]. *)
Inductive value : Type :=
| VNone
| VBool (b : bool)
| VInt (z : Z)
| VFloat (f : hfloat)
| VStr (s : string)
| VPrim (p : prim)
| VHost (h : hobject)
| VProc (id : nat) (parms : sexp) (body : sexp) (env : loc).

(** An operand the integer operators take: an [int], or a [bool] as 0 or 1. *)
Definition as_int (v : value) : option Z :=
  match v with
  | VBool b => Some (if b then 1 else 0)
  | VInt z => Some z
  | _ => None
  end.

Definition is_bool (v : value) : bool :=
  match v with VBool _ => true | _ => false end.

Definition is_host_operand (v : value) : bool :=
  match v with VFloat _ | VHost _ => true | _ => false end.

End Data.

(** What the interpreter takes from the host: the rounding of a float
    literal, the [math] module's attributes, truthiness of floats and host
    objects, the operators of the primitive table wherever an operand is a
    float or a host object (and the float quotient of two integers), and the
    call of a host object. *)
Class Host : Type := {
  host_types :: HostTypes;
  float_of_literal : float_literal -> hfloat;
  math_vars : list (string * value);
  float_truthy : hfloat -> bool;
  hobject_truthy : hobject -> bool;
  host_op : prim -> value -> value -> result value;
  host_call : hobject -> list value -> result value
}.

Section Interpreter.
Context `{Host}.

(** ** Sexp.atom *)

Definition atom (token : string) : sexp :=
  match py_int token with
  | Some z => Int z
  | None =>
      match py_float_literal token with
      | Some l => Float (float_of_literal l)
      | None => Sym token
      end
  end.

(** ** Sexp.read_from_tokens *)

(** The reader pops tokens off the front of the list it is given; the
    embedding returns the expression together with the tokens left.  [read]
    is the function's body and [read_loop] its [while] loop, with [L] the
    list built so far; [tokens[0]] on an empty list is the host's
    [IndexError]. *)
Fixpoint read (n : nat) (tokens : list string) {struct n}
  : result (sexp * list string) :=
  match n with
  | O => OutOfFuel
  | S n =>
      match tokens with
      | [] => Raise (SyntaxError "unexpected EOF while reading")
      | token :: tokens =>
          if String.eqb "(" token then read_loop n tokens []
          else if String.eqb ")" token then Raise (SyntaxError "unexpected )")
          else Ok (atom token, tokens)
      end
  end
with read_loop (n : nat) (tokens : list string) (L : list sexp) {struct n}
  : result (sexp * list string) :=
  match n with
  | O => OutOfFuel
  | S n =>
      match tokens with
      | [] => Raise (IndexError "list index out of range")
      | token :: rest =>
          if negb (String.eqb token ")") then
            match read n tokens with
            | Ok (e, tokens') => read_loop n tokens' (L ++ [e])
            | Raise e => Raise e
            | OutOfFuel => OutOfFuel
            | Stuck => Stuck
            end
          else Ok (List L, rest)
      end
  end.

(** Every call of the reader consumes a token, so a budget of twice the
    number of tokens (and one) is never exhausted: see
    [read_from_tokens_total]. *)
Definition read_from_tokens (tokens : list string) : result (sexp * list string) :=
  read (2 * length tokens + 1) tokens.

(** ** Sexp.parse *)

Definition parse (program : string) : result sexp :=
  match read_from_tokens (tokenize program) with
  | Ok (e, _) => Ok e
  | Raise e => Raise e
  | OutOfFuel => OutOfFuel
  | Stuck => Stuck
  end.

(** ** Env: frames and the store *)

(** An [Env] object: the bindings of the dict it extends, and [outer].
    The interpreter only ever looks a frame up with a [str] key
    ([Env.find] is called on Symbols), so the bindings are kept as a map on
    strings. *)
Record frame : Type := Frame {
  vars : gmap string value;
  outer : option loc
}.

(** The state of a run: the store of [Env] objects, what [print] has
    written so far (the argument list of each call, oldest first), and the
    number of [Procedure] objects created (the identity of the next one). *)
Record state : Type := State {
  heap : list frame;
  output : list (list value);
  next_id : nat
}.

Definition M (A : Type) : Type := state -> result A * state.

Definition ret {A} (a : A) : M A := fun st => (Ok a, st).
Definition raise {A} (e : exn) : M A := fun st => (Raise e, st).
Definition lift {A} (r : result A) : M A := fun st => (r, st).

Definition bind {A B} (m : M A) (k : A -> M B) : M B :=
  fun st =>
    match m st with
    | (Ok a, st') => k a st'
    | (Raise e, st') => (Raise e, st')
    | (OutOfFuel, st') => (OutOfFuel, st')
    | (Stuck, st') => (Stuck, st')
    end.

Notation "'let*' x ':=' m 'in' k" := (bind m (fun x => k))
  (at level 10, x name, m at level 100, k at level 200).

(** [[f(e) for e in l]], left to right. *)
Fixpoint mapM {A B} (f : A -> M B) (l : list A) : M (list B) :=
  match l with
  | [] => ret []
  | a :: l' => let* b := f a in let* bs := mapM f l' in ret (b :: bs)
  end.

(** [dict.update] with a sequence of pairs: later pairs overwrite. *)
Definition dict_update (d : gmap string value) (kvs : list (string * value))
  : gmap string value :=
  fold_left (fun d kv => <[kv.1 := kv.2]> d) kvs d.

(** Iterating over [parms]: a list yields its elements, a [str] its
    characters, a number is not iterable. *)
Definition iter_parms (parms : sexp) : result (list sexp) :=
  match parms with
  | List ps => Ok ps
  | Sym s => Ok (map (fun c => Sym (String c EmptyString)) (list_ascii_of_string s))
  | Int _ | Float _ => Raise TypeError
  end.

(** [self.update(zip(parms, args))] on a fresh dict: a Symbol key is bound,
    a list key is unhashable, and a numeric key is bound under a key that no
    lookup of the interpreter uses. *)
Fixpoint update_pairs (d : gmap string value) (kvs : list (sexp * value))
  : result (gmap string value) :=
  match kvs with
  | [] => Ok d
  | (Sym s, v) :: kvs => update_pairs (<[s := v]> d) kvs
  | (List _, _) :: _ => Raise TypeError
  | (_, _) :: kvs => update_pairs d kvs
  end.

(** Env.__init__(parms, args, outer) *)
Definition Env_init (parms : sexp) (args : list value) (outer : option loc)
  : result frame :=
  match iter_parms parms with
  | Ok ps =>
      match update_pairs ∅ (zip ps args) with
      | Ok d => Ok (Frame d outer)
      | Raise e => Raise e
      | OutOfFuel => OutOfFuel
      | Stuck => Stuck
      end
  | Raise e => Raise e
  | OutOfFuel => OutOfFuel
  | Stuck => Stuck
  end.

(** Env.find(var): the innermost frame, from [self] outward, that binds
    [var]. *)
Fixpoint Env_find (n : nat) (h : list frame) (self : loc) (var : string)
  : result loc :=
  match n with
  | O => OutOfFuel
  | S n =>
      match h !! self with
      | None => Stuck
      | Some fr =>
          match vars fr !! var with
          | Some _ => Ok self
          | None =>
              match outer fr with
              | Some o => Env_find n h o var
              | None => Raise (AttributeError "This arithmetic symbol does not exist")
              end
          end
      end
  end.

(** [env.find(x)[x]] *)
Definition lookup_var (n : nat) (env : loc) (x : string) : M value :=
  fun st =>
    match Env_find n (heap st) env x with
    | Ok l =>
        match heap st !! l with
        | Some fr =>
            match vars fr !! x with
            | Some v => (Ok v, st)
            | None => (Stuck, st)
            end
        | None => (Stuck, st)
        end
    | Raise e => (Raise e, st)
    | OutOfFuel => (OutOfFuel, st)
    | Stuck => (Stuck, st)
    end.

(** [env[var] = v]: writes the frame [env] itself, never an outer one.  A
    list is unhashable; a number is a legal key, bound beside the Symbols
    where no lookup of the interpreter ([Env.find] takes a [str]) sees it. *)
Definition setitem (env : loc) (var : sexp) (v : value) : M value :=
  fun st =>
    match var with
    | Sym s =>
        match heap st !! env with
        | Some fr =>
            (Ok VNone,
             State (<[env := Frame (<[s := v]> (vars fr)) (outer fr)]> (heap st))
                   (output st) (next_id st))
        | None => (Stuck, st)
        end
    | List _ => (Raise TypeError, st)
    | Int _ | Float _ => (Ok VNone, st)
    end.

(** Allocation of a new [Env] object. *)
Definition alloc (fr : frame) : M loc :=
  fun st => (Ok (length (heap st)), State (heap st ++ [fr]) (output st) (next_id st)).

(** Procedure(parms, body, env) *)
Definition new_procedure (parms body : sexp) (env : loc) : M value :=
  fun st =>
    (Ok (VProc (next_id st) parms body env),
     State (heap st) (output st) (S (next_id st))).

(** ** The primitive table *)

(** The host's truth test, as [if] and [op.not_] apply it. *)
Definition truthy (v : value) : bool :=
  match v with
  | VNone => false
  | VBool b => b
  | VInt z => negb (z =? 0)%Z
  | VFloat f => float_truthy f
  | VStr s => negb (String.eqb s "")
  | VPrim _ => true
  | VHost h => hobject_truthy h
  | VProc _ _ _ _ => true
  end.

Definition prim_eqb (p q : prim) : bool :=
  match p, q with
  | OpAdd, OpAdd | OpSub, OpSub | OpMul, OpMul | OpTruediv, OpTruediv
  | OpGt, OpGt | OpLt, OpLt | OpGe, OpGe | OpLe, OpLe | OpEq, OpEq
  | OpPrint, OpPrint | OpAnd, OpAnd | OpOr, OpOr | OpNot, OpNot => true
  | _, _ => false
  end.

(** The operators on two integers [x] and [y] (the operands [a] and [b]
    read by [as_int]).  [op.and_] and [op.or_] are the bitwise operators;
    on two [bool]s they return a [bool]. *)
Definition int_op (p : prim) (a b : value) (x y : Z) : result value :=
  match p with
  | OpAdd => Ok (VInt (x + y))
  | OpSub => Ok (VInt (x - y))
  | OpMul => Ok (VInt (x * y))
  | OpTruediv => if (y =? 0)%Z then Raise ZeroDivisionError else host_op OpTruediv a b
  | OpGt => Ok (VBool (x >? y)%Z)
  | OpLt => Ok (VBool (x <? y)%Z)
  | OpGe => Ok (VBool (x >=? y)%Z)
  | OpLe => Ok (VBool (x <=? y)%Z)
  | OpEq => Ok (VBool (x =? y)%Z)
  | OpAnd => Ok (if is_bool a && is_bool b then VBool (negb (Z.land x y =? 0)%Z)
                else VInt (Z.land x y))
  | OpOr => Ok (if is_bool a && is_bool b then VBool (negb (Z.lor x y =? 0)%Z)
               else VInt (Z.lor x y))
  | OpPrint | OpNot => Raise TypeError
  end.

(** [==] between operands that are not both numbers: strings by content,
    [None] with itself, a function or a [Procedure] with itself only. *)
Definition same_object (a b : value) : bool :=
  match a, b with
  | VNone, VNone => true
  | VStr s, VStr t => String.eqb s t
  | VPrim p, VPrim q => prim_eqb p q
  | VProc i _ _ _, VProc j _ _ _ => Nat.eqb i j
  | _, _ => false
  end.

Fixpoint str_repeat (s : string) (n : nat) : string :=
  match n with
  | O => EmptyString
  | S n => (s ++ str_repeat s n)%string
  end.

Definition str_cmp (p : prim) (s t : string) : result value :=
  match p with
  | OpGt => Ok (VBool (String.ltb t s))
  | OpLt => Ok (VBool (String.ltb s t))
  | OpGe => Ok (VBool (String.leb t s))
  | OpLe => Ok (VBool (String.leb s t))
  | _ => Raise TypeError
  end.

(** The operators when no operand is a float or a host object and the two
    are not both integers. *)
Definition other_op (p : prim) (a b : value) : result value :=
  match p with
  | OpEq => Ok (VBool (same_object a b))
  | OpAdd =>
      match a, b with
      | VStr s, VStr t => Ok (VStr (s ++ t)%string)
      | _, _ => Raise TypeError
      end
  | OpMul =>
      match a, b with
      | VStr s, _ =>
          match as_int b with
          | Some k => Ok (VStr (str_repeat s (Z.to_nat k)))
          | None => Raise TypeError
          end
      | _, VStr s =>
          match as_int a with
          | Some k => Ok (VStr (str_repeat s (Z.to_nat k)))
          | None => Raise TypeError
          end
      | _, _ => Raise TypeError
      end
  | OpGt | OpLt | OpGe | OpLe =>
      match a, b with
      | VStr s, VStr t => str_cmp p s t
      | _, _ => Raise TypeError
      end
  | _ => Raise TypeError
  end.

Definition binop (p : prim) (a b : value) : result value :=
  match as_int a, as_int b with
  | Some x, Some y => int_op p a b x y
  | _, _ =>
      if is_host_operand a || is_host_operand b then host_op p a b
      else other_op p a b
  end.

(** Calling an entry of the primitive table: [print] writes its arguments
    and returns [None], [op.not_] takes one operand, the others two. *)
Definition apply_prim (p : prim) (args : list value) : M value :=
  match p with
  | OpPrint =>
      fun st => (Ok VNone, State (heap st) (output st ++ [args]) (next_id st))
  | OpNot =>
      match args with
      | [a] => ret (VBool (negb (truthy a)))
      | _ => raise TypeError
      end
  | _ =>
      match args with
      | [a; b] => lift (binop p a b)
      | _ => raise TypeError
      end
  end.

Definition prim_table : list (string * value) :=
  [("+", VPrim OpAdd); ("-", VPrim OpSub); ("*", VPrim OpMul); ("/", VPrim OpTruediv);
   (">", VPrim OpGt); ("<", VPrim OpLt); (">=", VPrim OpGe); ("<=", VPrim OpLe);
   ("=", VPrim OpEq);
   ("print", VPrim OpPrint);
   ("and", VPrim OpAnd);
   ("or", VPrim OpOr);
   ("not", VPrim OpNot)].

(** ** Sexp.standard_env *)

Definition standard_env : frame :=
  Frame (dict_update (dict_update ∅ math_vars) prim_table) None.

(** ** Procedure.__call__ and the call of a value *)

(** The call of [proc] on the unpacked [args].  A [Procedure] builds
    [Env(self.parms, args, self.env)] and evaluates its body there with
    [ev], the evaluator ([Procedure.exp] is an interpreter of its own, but
    its [eval] is handed the new frame, so its global environment plays no
    part); the caller's environment is no argument of the call. *)
Definition call (ev : sexp -> loc -> M value) (proc : value) (args : list value)
  : M value :=
  match proc with
  | VProc _ parms body env =>
      let* fr := lift (Env_init parms args (Some env)) in
      let* l := alloc fr in
      ev body l
  | VPrim p => apply_prim p args
  | VHost h => lift (host_call h args)
  | VNone | VBool _ | VInt _ | VFloat _ | VStr _ => raise TypeError
  end.

(** ** Sexp.eval *)

(** [x[0] == name] *)
Definition head_is (x0 : sexp) (name : string) : bool :=
  match x0 with
  | Sym s => String.eqb s name
  | _ => false
  end.

Fixpoint eval (n : nat) (x : sexp) (env : loc) {struct n} : M value :=
  match n with
  | O => lift OutOfFuel
  | S n =>
      match x with
      | Sym s => lookup_var n env s
      | Int z => ret (VInt z)
      | Float f => ret (VFloat f)
      | List [] => raise (IndexError "list index out of range")
      | List (x0 :: rest) =>
          if head_is x0 "if" then
            match rest with
            | [test; conseq; alt] =>
                let* t := eval n test env in
                eval n (if truthy t then conseq else alt) env
            | _ => raise ValueError
            end
          else if head_is x0 "define" || head_is x0 "print" then
            match rest with
            | [var; exp] =>
                let* v := eval n exp env in
                setitem env var v
            | _ => raise ValueError
            end
          else if head_is x0 "lambda" then
            match rest with
            | [parms; body] => new_procedure parms body env
            | _ => raise ValueError
            end
          else
            let* proc := eval n x0 env in
            let* args := mapM (fun exp => eval n exp env) rest in
            call (eval n) proc args
      end
  end.

(** ** Sexp.__init__ *)

(** The global environment is the first object of the store. *)
Definition global_env : loc := 0%nat.

Definition init_state : state := State [standard_env] [] 0.

End Interpreter.

Notation "'let*' x ':=' m 'in' k" := (bind m (fun x => k))
  (at level 10, x name, m at level 100, k at level 200).

(** ** A reference host

    IEEE 754 binary64 floats as the Standard Library specifies them
    ([SpecFloat], precision 53, exponent bound 1024), and an excerpt of the
    [math] module: the constants [pi] and [e] and the functions [sqrt] and
    [fabs].  Closed examples are evaluated on it. *)
Module Binary64.

Definition prec : Z := 53.
Definition emax : Z := 1024.

Inductive math_object : Type := MathSqrt | MathFabs.

#[local] Instance types : HostTypes := {|
  hfloat := spec_float;
  hobject := math_object
|}.

(** The float nearest to [num / den] (ties to even), for [den > 0]. *)
Definition round_ratio (num den : Z) : spec_float :=
  let k := 1100 + Z.log2 den + 1 in
  let q := Z.shiftl num k / den in
  let sticky := if (Z.shiftl num k mod den =? 0)%Z then 0 else 1 in
  binary_normalize prec emax (2 * q + sticky) (- (k + 1)) false.

Definition of_literal (l : float_literal) : spec_float :=
  match l with
  | LitInf neg => S754_infinity neg
  | LitNan _ => S754_nan
  | LitDec neg m e =>
      if (m =? 0)%Z then S754_zero neg
      else if (0 <=? e)%Z then binary_normalize prec emax (signed neg m * 10 ^ e) 0 neg
      else round_ratio (signed neg m) (10 ^ (- e))
  end.

(** [float(z)] for an integer: [OverflowError] beyond the finite range. *)
Definition of_int (z : Z) : result spec_float :=
  match binary_normalize prec emax z 0 false with
  | S754_infinity _ => Raise OverflowError
  | f => Ok f
  end.

Definition to_float (v : value) : result spec_float :=
  match v with
  | VFloat f => Ok f
  | VHost _ | VNone | VStr _ | VPrim _ | VProc _ _ _ _ => Raise TypeError
  | VBool b => of_int (if b then 1 else 0)
  | VInt z => of_int z
  end.

(** The order of a float and an integer, compared exactly. *)
Definition compare_int (f : spec_float) (z : Z) : option comparison :=
  match f with
  | S754_nan => None
  | S754_infinity s => Some (if s then Lt else Gt)
  | S754_zero _ => Some (0 ?= z)%Z
  | S754_finite s m e =>
      let n := signed s (Z.pos m) in
      Some (if (0 <=? e)%Z then (Z.shiftl n e ?= z)%Z else (n ?= Z.shiftl z (- e))%Z)
  end.

Definition compare_values (a b : value) : result (option comparison) :=
  match a, b with
  | VFloat f, VFloat g => Ok (SFcompare f g)
  | VFloat f, _ =>
      match as_int b with
      | Some z => Ok (compare_int f z)
      | None => Raise TypeError
      end
  | _, VFloat g =>
      match as_int a with
      | Some z => Ok (option_map CompOpp (compare_int g z))
      | None => Raise TypeError
      end
  | _, _ => Raise TypeError
  end.

Definition is_zero (f : spec_float) : bool :=
  match f with S754_zero _ => true | _ => false end.

Definition arith (op : spec_float -> spec_float -> spec_float) (a b : value)
  : result value :=
  match to_float a with
  | Ok f =>
      match to_float b with
      | Ok g => Ok (VFloat (op f g))
      | Raise e => Raise e
      | OutOfFuel => OutOfFuel
      | Stuck => Stuck
      end
  | Raise e => Raise e
  | OutOfFuel => OutOfFuel
  | Stuck => Stuck
  end.

Definition test (ok : option comparison -> bool) (a b : value) : result value :=
  match compare_values a b with
  | Ok c => Ok (VBool (ok c))
  | Raise e => Raise e
  | OutOfFuel => OutOfFuel
  | Stuck => Stuck
  end.

Definition same_math_object (a b : value) : bool :=
  match a, b with
  | VHost MathSqrt, VHost MathSqrt | VHost MathFabs, VHost MathFabs => true
  | _, _ => false
  end.

Definition op (p : prim) (a b : value) : result value :=
  match p with
  | OpAdd => arith (SFadd prec emax) a b
  | OpSub => arith (SFsub prec emax) a b
  | OpMul => arith (SFmul prec emax) a b
  | OpTruediv =>
      match as_int a, as_int b with
      | Some x, Some y =>
          if (y =? 0)%Z then Raise ZeroDivisionError
          else match round_ratio (signed (y <? 0)%Z x) (Z.abs y) with
               | S754_infinity _ => Raise OverflowError
               | f => Ok (VFloat f)
               end
      | _, _ =>
          match to_float a, to_float b with
          | Ok f, Ok g =>
              if is_zero g then Raise ZeroDivisionError
              else Ok (VFloat (SFdiv prec emax f g))
          | _, _ => arith (SFdiv prec emax) a b
          end
      end
  | OpGt => test (fun c => match c with Some Gt => true | _ => false end) a b
  | OpLt => test (fun c => match c with Some Lt => true | _ => false end) a b
  | OpGe => test (fun c => match c with Some (Gt | Eq) => true | _ => false end) a b
  | OpLe => test (fun c => match c with Some (Lt | Eq) => true | _ => false end) a b
  | OpEq =>
      match compare_values a b with
      | Ok c => Ok (VBool (match c with Some Eq => true | _ => false end))
      | _ => Ok (VBool (same_math_object a b))
      end
  | OpAnd | OpOr | OpPrint | OpNot => Raise TypeError
  end.

Definition call_math (h : math_object) (args : list value) : result value :=
  match args with
  | [a] =>
      match to_float a with
      | Ok f =>
          match h with
          | MathFabs => Ok (VFloat (SFabs f))
          | MathSqrt =>
              match f with
              | S754_finite true _ _ | S754_infinity true => Raise ValueError
              | _ => Ok (VFloat (SFsqrt prec emax f))
              end
          end
      | Raise e => Raise e
      | OutOfFuel => OutOfFuel
      | Stuck => Stuck
      end
  | _ => Raise TypeError
  end.

Definition math : list (string * value) :=
  [("pi", VFloat (of_literal (LitDec false 3141592653589793 (-15))));
   ("e", VFloat (of_literal (LitDec false 2718281828459045 (-15))));
   ("sqrt", VHost MathSqrt);
   ("fabs", VHost MathFabs)].

#[local] Instance host : Host := {|
  host_types := types;
  float_of_literal := of_literal;
  math_vars := math;
  float_truthy := fun f => negb (is_zero f);
  hobject_truthy := fun _ => true;
  host_op := op;
  host_call := call_math
|}.

End Binary64.

(** * Vocabulary of the tokenizer's statements *)

Definition is_paren (c : ascii) : bool := ascii_eqb c "(" || ascii_eqb c ")".

(** An atom token: not empty, and free of whitespace and parentheses. *)
Fixpoint atom_chars (t : string) : bool :=
  match t with
  | EmptyString => true
  | String c t' => negb (is_space c) && negb (is_paren c) && atom_chars t'
  end.

Definition token_ok (t : string) : Prop :=
  t = "(" \/ t = ")" \/ (t <> "" /\ atom_chars t = true).

(** The text without its whitespace. *)
Fixpoint remove_spaces (s : string) : string :=
  match s with
  | EmptyString => EmptyString
  | String c s' => if is_space c then remove_spaces s' else String c (remove_spaces s')
  end.

Definition concat_tokens (ts : list string) : string :=
  fold_right String.append EmptyString ts.

(** In a padded text a parenthesis stands between two whitespace
    characters (or at an end of the text). *)
Definition next_ok (c : ascii) (s : string) : bool :=
  match s with
  | EmptyString => true
  | String d _ => (if is_paren d then is_space c else true)
                  && (if is_paren c then is_space d else true)
  end.

Fixpoint padded (s : string) : bool :=
  match s with
  | EmptyString => true
  | String c s' => next_ok c s' && padded s'
  end.

(** The text with a space on either side of every parenthesis: what
    [tokenize] splits. *)
Definition pad (s : string) : string := replace ")" " ) " (replace "(" " ( " s).

(** * Vocabulary of the statements *)

Section Vocabulary.
Context `{Host}.

(** The value a frame of the store binds a Symbol to, if any. *)
Definition binding (st : state) (env : loc) (s : string) : option value :=
  match heap st !! env with
  | Some fr => vars fr !! s
  | None => None
  end.

(** The frames of an environment chain, innermost first: [chain h env frs]
    when walking the [outer] links from [env] in the store [h] visits
    exactly the frames [frs] and ends at a frame without [outer]. *)
Inductive chain (h : list frame) : loc -> list frame -> Prop :=
| chain_root l fr :
    h !! l = Some fr -> outer fr = None -> chain h l [fr]
| chain_outer l fr o frs :
    h !! l = Some fr -> outer fr = Some o -> chain h o frs ->
    chain h l (fr :: frs).

(** What an evaluation in the environment [env] may do to the store: every
    frame stays where it is with its [outer] link, and every frame other
    than [env] keeps its bindings. *)
Definition frames_kept (env : loc) (st st' : state) : Prop :=
  forall l fr, heap st !! l = Some fr ->
    exists fr', heap st' !! l = Some fr' /\ outer fr' = outer fr /\
      (l <> env -> fr' = fr).

(** [m'] answers as [m] does wherever [m] answers within its budget. *)
Definition refines {A} (m m' : M A) : Prop :=
  forall st r st', m st = (r, st') -> r <> OutOfFuel -> m' st = (r, st').

(** Evaluation with enough fuel: from some budget on, every budget gives
    this value and this state. *)
Definition evaluates (x : sexp) (env : loc) (st : state) (v : value) (st' : state)
  : Prop :=
  exists N, forall n, (N <= n)%nat -> eval n x env st = (Ok v, st').

Definition calls (proc : value) (args : list value) (st : state) (v : value)
  (st' : state) : Prop :=
  exists N, forall n, (N <= n)%nat -> call (eval n) proc args st = (Ok v, st').

Definition evaluates_all (xs : list sexp) (env : loc) (st : state)
  (vs : list value) (st' : state) : Prop :=
  exists N, forall n, (N <= n)%nat ->
    mapM (fun exp => eval n exp env) xs st = (Ok vs, st').

(** The heads that [Sexp.eval] treats as special forms. *)
Definition special (x0 : sexp) : bool :=
  head_is x0 "if" || head_is x0 "define" || head_is x0 "print" || head_is x0 "lambda".

(** The two definitions of the closure example and the expression
    [(repeat (repeat ... twice))] with [k] applications of [repeat]. *)
Definition twice_body : sexp := List [Sym "*"; Int 2; Sym "x"].
Definition twice_lambda : sexp := List [Sym "lambda"; List [Sym "x"]; twice_body].
Definition define_twice : sexp := List [Sym "define"; Sym "twice"; twice_lambda].

Definition repeat_inner_body : sexp := List [Sym "f"; List [Sym "f"; Sym "x"]].
Definition repeat_body : sexp := List [Sym "lambda"; List [Sym "x"]; repeat_inner_body].
Definition repeat_lambda : sexp := List [Sym "lambda"; List [Sym "f"]; repeat_body].
Definition define_repeat : sexp := List [Sym "define"; Sym "repeat"; repeat_lambda].

Fixpoint repeated (k : nat) : sexp :=
  match k with
  | O => Sym "twice"
  | S k => List [Sym "repeat"; repeated k]
  end.

(** [n] successive products by the integer 2, as [op.mul] computes them. *)
Fixpoint iter_double (n : nat) (v : value) : result value :=
  match n with
  | O => Ok v
  | S n =>
      match binop OpMul (VInt 2) v with
      | Ok v' => iter_double n v'
      | r => r
      end
  end.

(** The closures the two definitions create in a new interpreter, and the
    state they leave. *)
Definition twice_closure : value :=
  VProc 0 (List [Sym "x"]) twice_body global_env.
Definition repeat_closure : value :=
  VProc 1 (List [Sym "f"]) repeat_body global_env.
Definition defs_state : state :=
  State [Frame (<["repeat" := repeat_closure]>
                  (<["twice" := twice_closure]> (vars standard_env))) None]
        [] 2.

(** [doubles n h p]: in any state whose store extends [h], calling [p] on
    one value returns what [n] successive products by 2 return, and only
    extends the store. *)
Definition doubles (n : nat) (h : list frame) (p : value) : Prop :=
  forall st v v', h `prefix_of` heap st -> iter_double n v = Ok v' ->
    exists st', calls p [v] st v' st' /\ heap st `prefix_of` heap st'.

End Vocabulary.

(** * Vocabulary of the further properties *)

(** The tokens written out with a space after each. *)
Fixpoint unwords (ts : list string) : string :=
  match ts with
  | [] => EmptyString
  | t :: ts => (t ++ String " " (unwords ts))%string
  end.

(** A well-parenthesised token sequence as a tree: a token that stands for
    itself, or the trees between a [(] and its [)]. *)
Inductive ttree : Type :=
| TAtom (t : string)
| TList (ts : list ttree).

(** The tokens of a tree, in order. *)
Fixpoint flatten (t : ttree) : list string :=
  match t with
  | TAtom a => [a]
  | TList ts => "(" :: mjoin (flatten <$> ts) ++ [")"]
  end.

(** No leaf is a parenthesis. *)
Fixpoint tree_ok (t : ttree) : bool :=
  match t with
  | TAtom a => negb (String.eqb a "(") && negb (String.eqb a ")")
  | TList ts => forallb tree_ok ts
  end.

(** Every leaf is an atom token: not empty, free of whitespace and
    parentheses. *)
Fixpoint tree_atoms (t : ttree) : bool :=
  match t with
  | TAtom a => negb (String.eqb a "") && atom_chars a
  | TList ts => forallb tree_atoms ts
  end.

Section FurtherVocabulary.
Context `{Host}.

(** The expression a tree of tokens stands for. *)
Fixpoint tree_sexp (t : ttree) : sexp :=
  match t with
  | TAtom a => atom a
  | TList ts => List (tree_sexp <$> ts)
  end.

(** The Symbols of an expression, in order. *)
Fixpoint symbols (e : sexp) : list string :=
  match e with
  | Sym s => [s]
  | List l => mjoin (symbols <$> l)
  | Int _ | Float _ => []
  end.

End FurtherVocabulary.

Section EvalVocabulary.
Context `{Host}.

(** The state only grows: the store and the output are extended and the
    count of Procedures does not decrease. *)
Definition grows (st st' : state) : Prop :=
  (length (heap st) <= length (heap st'))%nat /\
  output st `prefix_of` output st' /\
  (next_id st <= next_id st')%nat.

(** [finds h var self l]: walking outward from the frame [self], the frame
    [l] is the first that binds [var]. *)
Inductive finds (h : list frame) (var : string) : loc -> loc -> Prop :=
| finds_here l fr :
    h !! l = Some fr -> is_Some (vars fr !! var) -> finds h var l l
| finds_outer l fr o l' :
    h !! l = Some fr -> vars fr !! var = None -> outer fr = Some o ->
    finds h var o l' -> finds h var l l'.

End EvalVocabulary.

Section StoreVocabulary.
Context `{Host}.

(** A value refers to frames of the store only: a Procedure's captured
    environment is one of the first [k] locations. *)
Definition value_ok (k : nat) (v : value) : Prop :=
  match v with
  | VProc _ _ _ env => (env < k)%nat
  | _ => True
  end.

(** The frame at location [l] of a store of [k] frames: its [outer] frame
    was allocated before it, and the values it binds are [value_ok]. *)
Definition frame_ok (k l : nat) (fr : frame) : Prop :=
  (forall o, outer fr = Some o -> (o < l)%nat) /\
  map_Forall (fun _ v => value_ok k v) (vars fr).

Definition store_ok (h : list frame) : Prop :=
  forall l fr, h !! l = Some fr -> frame_ok (length h) l fr.

Definition is_procedure (v : value) : bool :=
  match v with VProc _ _ _ _ => true | _ => false end.

(** What a host operation may answer: a value that is no Procedure, or an
    exception. *)
Definition data_answer (r : result value) : Prop :=
  match r with
  | Ok v => is_procedure v = false
  | Raise _ => True
  | OutOfFuel | Stuck => False
  end.

(** The host's operators, its callable objects and its [math] module hand
    out data, never a Procedure of the interpreter. *)
Definition host_returns_data : Prop :=
  (forall p a b, data_answer (host_op p a b)) /\
  (forall h args, data_answer (host_call h args)) /\
  Forall (fun kv => is_procedure kv.2 = false) math_vars.

(** An outcome of a computation started in the state [st]: the store is
    still [store_ok] and no shorter, the computation did not get stuck, and
    what it returned satisfies [P] for the size of the store. *)
Definition sound_answer {A} (P : nat -> A -> Prop) (st : state)
  (out : result A * state) : Prop :=
  store_ok (heap out.2) /\
  (length (heap st) <= length (heap out.2))%nat /\
  out.1 <> Stuck /\
  (forall a, out.1 = Ok a -> P (length (heap out.2)) a).

Definition sound_outcome (st : state) (out : result value * state) : Prop :=
  sound_answer value_ok st out.

End StoreVocabulary.

(** * Properties of the tokenizer *)

Lemma ascii_eqb_eq a b : ascii_eqb a b = true -> a = b.
Proof.
  unfold ascii_eqb, code. intros E. apply N.eqb_eq in E.
  rewrite <- (ascii_N_embedding a), <- (ascii_N_embedding b). now rewrite E.
Qed.

Lemma is_paren_cases c : is_paren c = true -> c = "("%char \/ c = ")"%char.
Proof.
  unfold is_paren. intros E. apply orb_true_iff in E as [E|E];
    apply ascii_eqb_eq in E; auto.
Qed.

Lemma pad_cons c s :
  pad (String c s) =
  if ascii_eqb c "(" then String " " (String "(" (String " " (pad s)))
  else if ascii_eqb c ")" then String " " (String ")" (String " " (pad s)))
  else String c (pad s).
Proof.
  unfold pad. cbn [replace].
  destruct (ascii_eqb c "(") eqn:Eo; [reflexivity|].
  cbn [replace]. now destruct (ascii_eqb c ")").
Qed.

Lemma pad_no_leading_paren s :
  match pad s with String d _ => is_paren d = false | EmptyString => True end.
Proof.
  destruct s as [|c s]; [exact I|]. rewrite pad_cons.
  destruct (ascii_eqb c "(") eqn:Eo; [reflexivity|].
  destruct (ascii_eqb c ")") eqn:Ec; [reflexivity|].
  unfold is_paren. now rewrite Eo, Ec.
Qed.

Lemma pad_padded s : padded (pad s) = true.
Proof.
  induction s as [|c s IH]; [reflexivity|]. rewrite pad_cons.
  pose proof (pad_no_leading_paren s) as Hlead.
  destruct (ascii_eqb c "(") eqn:Eo; [|destruct (ascii_eqb c ")") eqn:Ec].
  - cbn [padded]. rewrite IH. destruct (pad s) as [|d r]; [reflexivity|].
    cbn [next_ok]. now rewrite Hlead.
  - cbn [padded]. rewrite IH. destruct (pad s) as [|d r]; [reflexivity|].
    cbn [next_ok]. now rewrite Hlead.
  - cbn [padded]. rewrite IH. destruct (pad s) as [|d r]; [reflexivity|].
    cbn [next_ok]. rewrite Hlead. unfold is_paren. now rewrite Eo, Ec.
Qed.

Lemma remove_spaces_pad s : remove_spaces (pad s) = remove_spaces s.
Proof.
  induction s as [|c s IH]; [reflexivity|]. rewrite pad_cons.
  destruct (ascii_eqb c "(") eqn:Eo; [|destruct (ascii_eqb c ")") eqn:Ec].
  - apply ascii_eqb_eq in Eo as ->. cbn. now rewrite IH.
  - apply ascii_eqb_eq in Ec as ->. cbn. now rewrite IH.
  - cbn [remove_spaces]. now rewrite IH.
Qed.

(** The first token of a text that starts with one starts with the same
    character. *)
Lemma split_first c s :
  is_space c = false ->
  exists t ts, split (String c s) = String c t :: ts.
Proof.
  intros Hc. cbn [split]. rewrite Hc.
  destruct (starts_token s); [|now exists EmptyString, (split s)].
  destruct (split s) as [|t ts]; [now exists EmptyString, []|now exists t, ts].
Qed.

Lemma concat_tokens_cons t ts :
  concat_tokens (t :: ts) = (t ++ concat_tokens ts)%string.
Proof. reflexivity. Qed.

Lemma append_String c t r : (String c t ++ r)%string = String c (t ++ r)%string.
Proof. reflexivity. Qed.

Lemma split_concat s : concat_tokens (split s) = remove_spaces s.
Proof.
  induction s as [|c s IH]; [reflexivity|]. cbn [split remove_spaces].
  destruct (is_space c) eqn:Hc; [exact IH|].
  destruct (starts_token s) eqn:Hs.
  - destruct s as [|d s]; [discriminate|]. cbn [starts_token] in Hs.
    apply negb_true_iff in Hs.
    destruct (split_first d s Hs) as (t & ts & Hsp).
    rewrite Hsp in IH |- *. rewrite concat_tokens_cons in IH |- *.
    now rewrite append_String, IH.
  - now rewrite concat_tokens_cons, append_String, IH.
Qed.

Lemma split_token_ok s : padded s = true -> Forall token_ok (split s).
Proof.
  induction s as [|c s IH]; [constructor|]. cbn [padded split].
  intros Hp. apply andb_true_iff in Hp as [Hn Hp]. specialize (IH Hp).
  destruct (is_space c) eqn:Hc; [exact IH|].
  destruct (starts_token s) eqn:Hs.
  - destruct s as [|d s]; [discriminate|]. cbn [starts_token] in Hs.
    apply negb_true_iff in Hs. cbn [next_ok] in Hn.
    apply andb_true_iff in Hn as [Hd Hcp].
    assert (Hdp : is_paren d = false)
      by (destruct (is_paren d); [congruence|reflexivity]).
    assert (Hcq : is_paren c = false)
      by (destruct (is_paren c); [congruence|reflexivity]).
    destruct (split_first d s Hs) as (t & ts & Hsp). rewrite Hsp in IH |- *.
    apply Forall_cons in IH as [Ht Hts]. constructor; [|exact Hts].
    right. right. split; [discriminate|].
    destruct Ht as [Ht|[Ht|[_ Ht]]].
    + injection Ht as -> _. discriminate.
    + injection Ht as -> _. discriminate.
    + cbn [atom_chars]. now rewrite Hc, Hcq.
  - constructor; [|exact IH].
    destruct (is_paren c) eqn:Hcp.
    + apply is_paren_cases in Hcp as [-> | ->]; [now left|now right; left].
    + right. right. split; [discriminate|]. cbn [atom_chars]. now rewrite Hc, Hcp.
Qed.

(** * Properties of the reader *)

Section ReaderProperties.
Context `{Host}.

Lemma read_S n tokens :
  read (S n) tokens =
  match tokens with
  | [] => Raise (SyntaxError "unexpected EOF while reading")
  | token :: tokens =>
      if String.eqb "(" token then read_loop n tokens []
      else if String.eqb ")" token then Raise (SyntaxError "unexpected )")
      else Ok (atom token, tokens)
  end.
Proof. reflexivity. Qed.

Lemma read_loop_S n tokens L :
  read_loop (S n) tokens L =
  match tokens with
  | [] => Raise (IndexError "list index out of range")
  | token :: rest =>
      if negb (String.eqb token ")") then
        match read n tokens with
        | Ok (e, tokens') => read_loop n tokens' (L ++ [e])
        | Raise e => Raise e
        | OutOfFuel => OutOfFuel
        | Stuck => Stuck
        end
      else Ok (List L, rest)
  end.
Proof. reflexivity. Qed.

(** A successful read consumed a non-empty prefix of the tokens and never
    looked at what follows it. *)
Lemma read_prefix_fuel n :
  (forall tokens e rest, read n tokens = Ok (e, rest) ->
     exists pre, tokens = pre ++ rest /\ pre <> [] /\
       forall rest', read n (pre ++ rest') = Ok (e, rest')) /\
  (forall tokens L e rest, read_loop n tokens L = Ok (e, rest) ->
     exists pre, tokens = pre ++ rest /\ pre <> [] /\
       forall rest', read_loop n (pre ++ rest') L = Ok (e, rest')).
Proof.
  induction n as [|n [IHr IHl]]; [split; intros; discriminate|].
  split.
  - intros tokens e rest. rewrite read_S.
    destruct tokens as [|token tokens]; [discriminate|].
    destruct (String.eqb "(" token) eqn:Hopen.
    + intros Hl. destruct (IHl _ _ _ _ Hl) as (pre & -> & _ & Hpre).
      exists (token :: pre). split; [reflexivity|]. split; [discriminate|].
      intros rest'. rewrite <- app_comm_cons, read_S, Hopen. apply Hpre.
    + destruct (String.eqb ")" token) eqn:Hclose; [discriminate|].
      intros [= <- <-]. exists [token]. split; [reflexivity|].
      split; [discriminate|].
      intros rest'. change ([token] ++ rest') with (token :: rest').
      now rewrite read_S, Hopen, Hclose.
  - intros tokens L e rest. rewrite read_loop_S.
    destruct tokens as [|token rest0]; [discriminate|].
    destruct (negb (String.eqb token ")")) eqn:Hne.
    + destruct (read n (token :: rest0)) as [[e1 t1]| | |] eqn:Hr; try discriminate.
      intros Hl.
      destruct (IHr _ _ _ Hr) as (p1 & Hp1 & Hne1 & Hpre1).
      destruct (IHl _ _ _ _ Hl) as (p2 & -> & _ & Hpre2).
      exists (p1 ++ p2). split; [now rewrite Hp1, app_assoc|].
      split; [now destruct p1|].
      intros rest'.
      destruct p1 as [|t0 p1]; [done|]. injection Hp1 as <- Hp1.
      rewrite <- app_assoc, <- app_comm_cons, read_loop_S, Hne.
      rewrite app_comm_cons, Hpre1. apply Hpre2.
    + intros [= <- <-]. exists [token]. split; [reflexivity|].
      split; [discriminate|].
      intros rest'. change ([token] ++ rest') with (token :: rest').
      now rewrite read_loop_S, Hne.
Qed.

(** More fuel never changes an answer. *)
Lemma read_fuel_S n :
  (forall tokens, read n tokens <> OutOfFuel -> read (S n) tokens = read n tokens) /\
  (forall tokens L, read_loop n tokens L <> OutOfFuel ->
     read_loop (S n) tokens L = read_loop n tokens L).
Proof.
  induction n as [|n [IHr IHl]]; [split; intros; simpl in *; congruence|].
  split.
  - intros tokens. rewrite (read_S (S n)), (read_S n).
    destruct tokens as [|token tokens]; [reflexivity|].
    destruct (String.eqb "(" token); [apply IHl|reflexivity].
  - intros tokens L. rewrite (read_loop_S (S n)), (read_loop_S n).
    destruct tokens as [|token rest0]; [reflexivity|].
    destruct (negb (String.eqb token ")")); [|reflexivity].
    intros Hf.
    assert (Hr : read n (token :: rest0) <> OutOfFuel).
    { intros E. rewrite E in Hf. congruence. }
    rewrite (IHr _ Hr).
    destruct (read n (token :: rest0)) as [[e1 t1]| | |]; try reflexivity.
    apply IHl, Hf.
Qed.

Lemma read_fuel_le n m tokens :
  (n <= m)%nat -> read n tokens <> OutOfFuel -> read m tokens = read n tokens.
Proof.
  induction 1 as [|m Hle IH]; [reflexivity|].
  intros Hf. rewrite <- (IH Hf). apply read_fuel_S. now rewrite (IH Hf).
Qed.

(** Twice the number of tokens, and one, is fuel enough. *)
Lemma read_enough_fuel n :
  (forall tokens, (2 * length tokens + 1 <= n)%nat -> read n tokens <> OutOfFuel) /\
  (forall tokens L, (2 * length tokens + 2 <= n)%nat ->
     read_loop n tokens L <> OutOfFuel).
Proof.
  induction n as [|n [IHr IHl]]; [split; intros; lia|].
  split.
  - intros tokens Hn. rewrite read_S.
    destruct tokens as [|token tokens]; [discriminate|].
    destruct (String.eqb "(" token).
    + apply IHl. simpl in Hn. lia.
    + destruct (String.eqb ")" token); discriminate.
  - intros tokens L Hn. rewrite read_loop_S.
    destruct tokens as [|token rest0]; [discriminate|].
    destruct (negb (String.eqb token ")")); [|discriminate].
    assert (Hr : read n (token :: rest0) <> OutOfFuel) by (apply IHr; lia).
    destruct (read n (token :: rest0)) as [[e1 t1]| | |] eqn:E;
      try discriminate; try congruence.
    destruct (proj1 (read_prefix_fuel n) _ _ _ E) as (pre & Hpre & Hne & _).
    apply IHl. assert (length (token :: rest0) = length pre + length t1)%nat
      by (now rewrite Hpre, length_app).
    destruct pre; [done|]. simpl in *. lia.
Qed.

Lemma read_never_stuck n :
  (forall tokens, read n tokens <> Stuck) /\
  (forall tokens L, read_loop n tokens L <> Stuck).
Proof.
  induction n as [|n [IHr IHl]]; [split; intros; discriminate|].
  split.
  - intros tokens. rewrite read_S.
    destruct tokens as [|token tokens]; [discriminate|].
    destruct (String.eqb "(" token); [apply IHl|].
    destruct (String.eqb ")" token); discriminate.
  - intros tokens L. rewrite read_loop_S.
    destruct tokens as [|token rest0]; [discriminate|].
    destruct (negb (String.eqb token ")")); [|discriminate].
    destruct (read n (token :: rest0)) as [[e1 t1]| | |] eqn:E; try discriminate.
    + apply IHl.
    + now apply IHr in E.
Qed.

(** The reader is total: it answers with an expression or an exception. *)
Lemma read_from_tokens_total tokens :
  read_from_tokens tokens <> OutOfFuel /\ read_from_tokens tokens <> Stuck.
Proof.
  split; [apply read_enough_fuel; lia | apply read_never_stuck].
Qed.

Lemma read_from_tokens_fuel n tokens :
  read n tokens <> OutOfFuel -> read n tokens = read_from_tokens tokens.
Proof.
  intros Hn. unfold read_from_tokens.
  destruct (Nat.le_ge_cases n (2 * length tokens + 1)) as [Hle|Hle].
  - symmetry. now apply read_fuel_le.
  - apply read_fuel_le; [exact Hle|]. apply read_from_tokens_total.
Qed.

Lemma read_from_tokens_prefix tokens e rest :
  read_from_tokens tokens = Ok (e, rest) ->
  exists pre, tokens = pre ++ rest /\ pre <> [] /\
    forall rest', read_from_tokens (pre ++ rest') = Ok (e, rest').
Proof.
  intros Hr.
  destruct (proj1 (read_prefix_fuel _) _ _ _ Hr) as (pre & Hpre & Hne & Hall).
  exists pre. split; [exact Hpre|]. split; [exact Hne|].
  intros rest'. rewrite <- (Hall rest'). symmetry.
  apply read_from_tokens_fuel. now rewrite Hall.
Qed.

(** No proper prefix of the tokens of one expression reads successfully. *)
Lemma read_from_tokens_shortest pre e :
  read_from_tokens pre = Ok (e, []) ->
  forall pre' ext, pre = pre' ++ ext -> ext <> [] ->
  forall e' r, read_from_tokens pre' <> Ok (e', r).
Proof.
  intros Hpre pre' ext -> Hext e' r Hr'.
  destruct (read_from_tokens_prefix _ _ _ Hr') as (p & -> & _ & Hall).
  specialize (Hall (r ++ ext)). rewrite app_assoc, Hpre in Hall.
  injection Hall as _ Hnil. symmetry in Hnil.
  apply app_eq_nil in Hnil as [_ ?]. contradiction.
Qed.

(** Exhaustion inside a list: when the tokens stop before the expression
    they begin is complete, the loop's [tokens[0]] raises [IndexError]. *)
Lemma read_truncated_fuel n :
  (forall tokens ext e rest, tokens <> [] ->
     read n (tokens ++ ext) = Ok (e, rest) -> (length rest < length ext)%nat ->
     read n tokens = Raise (IndexError "list index out of range")) /\
  (forall tokens ext L e rest,
     read_loop n (tokens ++ ext) L = Ok (e, rest) -> (length rest < length ext)%nat ->
     read_loop n tokens L = Raise (IndexError "list index out of range")).
Proof.
  induction n as [|n [IHr IHl]]; [split; intros; discriminate|].
  split.
  - intros tokens ext e rest Hne.
    destruct tokens as [|token tokens]; [done|].
    rewrite <- app_comm_cons, !read_S.
    destruct (String.eqb "(" token); [apply IHl|].
    destruct (String.eqb ")" token); [discriminate|].
    intros [= <- <-]. rewrite length_app. lia.
  - intros tokens ext L e rest.
    destruct tokens as [|token tokens]; [intros; apply read_loop_S|].
    rewrite <- app_comm_cons, !read_loop_S.
    destruct (negb (String.eqb token ")")).
    + rewrite app_comm_cons.
      destruct (read n ((token :: tokens) ++ ext)) as [[e1 t1]| | |] eqn:Hr;
        try discriminate.
      intros Hl Hlen.
      destruct (proj1 (read_prefix_fuel n) _ _ _ Hr) as (p1 & Hp1 & _ & Hall).
      destruct (Nat.le_gt_cases (length p1) (length (token :: tokens))) as [Hle|Hgt].
      * (* the element ends within the tokens *)
        assert (Hts : exists ts2, token :: tokens = p1 ++ ts2 /\ t1 = ts2 ++ ext).
        { exists (drop (length p1) (token :: tokens)).
          assert (Htk : take (length p1) ((token :: tokens) ++ ext) = p1)
            by (rewrite Hp1; apply take_app_length).
          rewrite take_app_le in Htk by exact Hle.
          split; [now rewrite <- Htk at 1; rewrite take_drop|].
          apply (f_equal (drop (length p1))) in Hp1.
          rewrite drop_app_length in Hp1. rewrite <- Hp1.
          now rewrite drop_app_le. }
        destruct Hts as (ts2 & Hts & ->).
        rewrite Hts, Hall. now apply (IHl ts2 ext _ e rest).
      * (* the element ends beyond them *)
        rewrite (IHr (token :: tokens) ext e1 t1); [reflexivity|done|exact Hr|].
        apply (f_equal length) in Hp1. rewrite !length_app in Hp1. lia.
    + intros [= <- <-]. rewrite length_app. lia.
Qed.

Lemma read_eof_only_at_start n :
  (forall tokens, read n tokens = Raise (SyntaxError "unexpected EOF while reading") ->
     tokens = []) /\
  (forall tokens L,
     read_loop n tokens L <> Raise (SyntaxError "unexpected EOF while reading")).
Proof.
  induction n as [|n [IHr IHl]]; [split; intros; discriminate|].
  split.
  - intros tokens. rewrite read_S.
    destruct tokens as [|token tokens]; [reflexivity|].
    destruct (String.eqb "(" token); [intros E; now apply IHl in E|].
    destruct (String.eqb ")" token); discriminate.
  - intros tokens L. rewrite read_loop_S.
    destruct tokens as [|token rest0]; [discriminate|].
    destruct (negb (String.eqb token ")")); [|discriminate].
    destruct (read n (token :: rest0)) as [[e1 t1]| | |] eqn:E; try discriminate.
    + apply IHl.
    + intros [= ->]. now apply IHr in E.
Qed.

Lemma read_paren_only_at_start n :
  (forall tokens, read n tokens = Raise (SyntaxError "unexpected )") ->
     exists rest, tokens = ")" :: rest) /\
  (forall tokens L, read_loop n tokens L <> Raise (SyntaxError "unexpected )")).
Proof.
  induction n as [|n [IHr IHl]]; [split; intros; discriminate|].
  split.
  - intros tokens. rewrite read_S.
    destruct tokens as [|token tokens]; [discriminate|].
    destruct (String.eqb "(" token); [intros E; now apply IHl in E|].
    destruct (String.eqb ")" token) eqn:Ec; [|discriminate].
    intros _. apply String.eqb_eq in Ec as <-. now exists tokens.
  - intros tokens L. rewrite read_loop_S.
    destruct tokens as [|token rest0]; [discriminate|].
    destruct (String.eqb token ")") eqn:Ec; cbn [negb]; [discriminate|].
    destruct (read n (token :: rest0)) as [[e1 t1]| | |] eqn:E; try discriminate.
    + apply IHl.
    + intros [= ->]. apply IHr in E as [rest [= -> _]].
      now rewrite String.eqb_refl in Ec.
Qed.

(** C10.  [parse] returns the expression read from the shortest prefix of
    the token sequence that forms one complete expression and ignores the
    tokens after it: a successful read splits the tokens into a non-empty
    prefix and the untouched rest, the same prefix followed by any other
    tokens reads to the same expression, and no proper prefix of it reads
    successfully; [parse] drops the rest without an error.  On ["1 2"] it
    returns 1 and on ["(a) b"] the one-element list [[a]]. *)
Theorem parse_reads_shortest_prefix :
  (forall tokens e rest, read_from_tokens tokens = Ok (e, rest) ->
     exists pre, tokens = pre ++ rest /\ pre <> [] /\
       (forall rest', read_from_tokens (pre ++ rest') = Ok (e, rest')) /\
       (forall pre' ext, pre = pre' ++ ext -> ext <> [] ->
          forall e' r, read_from_tokens pre' <> Ok (e', r))) /\
  (forall program e,
     parse program = Ok e <->
     exists rest, read_from_tokens (tokenize program) = Ok (e, rest)) /\
  parse "1 2" = Ok (Int 1) /\
  parse "(a) b" = Ok (List [Sym "a"]).
Proof.
  split; [|split; [|split; reflexivity]].
  - intros tokens e rest Hr.
    destruct (read_from_tokens_prefix _ _ _ Hr) as (pre & Hpre & Hne & Hall).
    exists pre. repeat split; try assumption.
    apply (read_from_tokens_shortest pre e).
    now rewrite <- (Hall []), app_nil_r.
  - intros program e. unfold parse.
    destruct (read_from_tokens (tokenize program)) as [[e0 r]| | |]; split.
    + intros [= ->]. now exists r.
    + now intros (rest & [= -> _]).
    + discriminate.
    + now intros (rest & ?).
    + discriminate.
    + now intros (rest & ?).
    + discriminate.
    + now intros (rest & ?).
Qed.

(** C1, as the code has it.  Reading the six tokens [( print a 10 ) )]
    returns the list [[print, a, 10]] and leaves the last [)] unread, with
    no error: the reader stops after one complete expression.  The reader
    fails with SyntaxError "unexpected )" exactly when the first token it is
    handed is [)], whatever follows: a leading [)] raises it, and a token
    list on which the reader raises it begins with [)].  Where an element of
    an open list could start, a [)] closes that list, and the loop of an
    open list never raises that error, with any budget. *)
Theorem read_closing_parenthesis :
  read_from_tokens ["("; "print"; "a"; "10"; ")"; ")"]
    = Ok (List [Sym "print"; Sym "a"; Int 10], [")"]) /\
  (forall tokens,
     read_from_tokens tokens = Raise (SyntaxError "unexpected )") <->
     exists rest, tokens = ")" :: rest) /\
  (forall n rest L, read_loop (S n) (")" :: rest) L = Ok (List L, rest)) /\
  (forall n tokens L, read_loop n tokens L <> Raise (SyntaxError "unexpected )")).
Proof.
  split; [reflexivity|]. split; [|split; [reflexivity|]].
  - intros tokens. split.
    + apply (proj1 (read_paren_only_at_start _)).
    + intros [rest ->]. unfold read_from_tokens.
      replace (2 * length (")" :: rest) + 1)%nat
        with (S (2 * length (")" :: rest)))%nat by lia.
      reflexivity.
  - intros n. apply (proj2 (read_paren_only_at_start n)).
Qed.

(** C3, on the code.  With no token at all the reader raises SyntaxError
    "unexpected EOF while reading", and that is the only way it raises it.
    When the tokens run out inside a list (they are a non-empty sequence
    that some continuation completes to an expression) the loop's
    [tokens[0]] raises the host's IndexError instead. *)
Theorem read_exhausted_tokens :
  read_from_tokens [] = Raise (SyntaxError "unexpected EOF while reading") /\
  parse "" = Raise (SyntaxError "unexpected EOF while reading") /\
  (forall tokens,
     read_from_tokens tokens = Raise (SyntaxError "unexpected EOF while reading") ->
     tokens = []) /\
  (forall tokens ext e rest, tokens <> [] ->
     read_from_tokens (tokens ++ ext) = Ok (e, rest) ->
     (length rest < length ext)%nat ->
     read_from_tokens tokens = Raise (IndexError "list index out of range")) /\
  read_from_tokens ["("] = Raise (IndexError "list index out of range") /\
  parse "(define a" = Raise (IndexError "list index out of range").
Proof.
  split; [reflexivity|]. split; [reflexivity|].
  split; [intros tokens; apply (proj1 (read_eof_only_at_start _))|].
  split; [|split; reflexivity].
  intros tokens ext e rest Hne Hr Hlen.
  rewrite <- (read_from_tokens_fuel (2 * length (tokens ++ ext) + 1)).
  - now apply (proj1 (read_truncated_fuel _) tokens ext e rest).
  - now rewrite (proj1 (read_truncated_fuel _) tokens ext e rest).
Qed.

(** C8.  The tokenizer is a function of its text alone: it puts a space on
    either side of every parenthesis and splits at the runs of whitespace.
    Hence every token is [(], [)] or a non-empty atom free of whitespace and
    parentheses, the tokens in order spell the text without its whitespace,
    and the empty text has no token.  [atom] tries the integer reading
    first, then the float reading, and otherwise keeps the token as a
    Symbol: ["10"], which is also a float literal, becomes the integer 10.
    On ["(begin (define a 10) (* a 3))"] the tokenizer yields the thirteen
    tokens and the reader the tree [[begin, [define, a, 10], [*, a, 3]]] with
    10 and 3 integers. *)
Theorem tokenize_and_atom :
  (forall s, tokenize s = split (replace ")" " ) " (replace "(" " ( " s))) /\
  (forall s, Forall token_ok (tokenize s)) /\
  (forall s, concat_tokens (tokenize s) = remove_spaces s) /\
  tokenize "" = [] /\
  (forall t z, py_int t = Some z -> atom t = Int z) /\
  (forall t l, py_int t = None -> py_float_literal t = Some l ->
     atom t = Float (float_of_literal l)) /\
  (forall t, py_int t = None -> py_float_literal t = None -> atom t = Sym t) /\
  (py_float_literal "10" = Some (LitDec false 10 0) /\ atom "10" = Int 10) /\
  tokenize "(begin (define a 10) (* a 3))"
    = ["("; "begin"; "("; "define"; "a"; "10"; ")"; "("; "*"; "a"; "3"; ")"; ")"] /\
  read_from_tokens
    ["("; "begin"; "("; "define"; "a"; "10"; ")"; "("; "*"; "a"; "3"; ")"; ")"]
    = Ok (List [Sym "begin"; List [Sym "define"; Sym "a"; Int 10];
                List [Sym "*"; Sym "a"; Int 3]], []) /\
  parse "(begin (define a 10) (* a 3))"
    = Ok (List [Sym "begin"; List [Sym "define"; Sym "a"; Int 10];
                List [Sym "*"; Sym "a"; Int 3]]).
Proof.
  split; [reflexivity|].
  split; [intros s; apply split_token_ok, pad_padded|].
  split; [intros s; unfold tokenize; fold (pad s);
          now rewrite split_concat, remove_spaces_pad|].
  split; [reflexivity|].
  split; [intros t z Hz; unfold atom; now rewrite Hz|].
  split; [intros t l Hz Hl; unfold atom; now rewrite Hz, Hl|].
  split; [intros t Hz Hl; unfold atom; now rewrite Hz, Hl|].
  repeat split; reflexivity.
Qed.

Lemma read_raises n :
  (forall tokens e, read n tokens = Raise e ->
     e = SyntaxError "unexpected EOF while reading" \/
     e = SyntaxError "unexpected )" \/
     e = IndexError "list index out of range") /\
  (forall tokens L e, read_loop n tokens L = Raise e ->
     e = SyntaxError "unexpected )" \/
     e = IndexError "list index out of range").
Proof.
  induction n as [|n [IHr IHl]]; [split; intros; discriminate|].
  split.
  - intros tokens e. rewrite read_S.
    destruct tokens as [|token tokens]; [intros [= <-]; auto|].
    destruct (String.eqb "(" token); [intros E; apply IHl in E; tauto|].
    destruct (String.eqb ")" token); [intros [= <-]; auto|discriminate].
  - intros tokens L e. rewrite read_loop_S.
    destruct tokens as [|token rest0]; [intros [= <-]; auto|].
    destruct (negb (String.eqb token ")")); [|discriminate].
    destruct (read n (token :: rest0)) as [[e1 t1]|e0| |] eqn:E; try discriminate.
    + apply IHl.
    + intros [= <-]. destruct (IHr _ _ E) as [->|[->| ->]]; auto.
      now apply (proj1 (read_eof_only_at_start n)) in E.
Qed.

(** X1.  The reader is total: on every token list it returns an expression
    with the tokens left, or raises one of three exceptions, the two
    SyntaxErrors of the source and the IndexError of an exhausted list. *)
Theorem read_from_tokens_answers :
  forall tokens,
    (exists e rest, read_from_tokens tokens = Ok (e, rest)) \/
    read_from_tokens tokens = Raise (SyntaxError "unexpected EOF while reading") \/
    read_from_tokens tokens = Raise (SyntaxError "unexpected )") \/
    read_from_tokens tokens = Raise (IndexError "list index out of range").
Proof.
  intros tokens. destruct (read_from_tokens_total tokens) as [Hf Hs].
  destruct (read_from_tokens tokens) as [[e rest]|e| |] eqn:E; try done.
  - left. now exists e, rest.
  - right. destruct (proj1 (read_raises _) _ _ E) as [->|[->| ->]]; auto.
Qed.

End ReaderProperties.

(** * Properties of the evaluator *)

Section EvalProperties.
Context `{Host}.

Lemma eval_S n x env :
  eval (S n) x env =
  match x with
  | Sym s => lookup_var n env s
  | Int z => ret (VInt z)
  | Float f => ret (VFloat f)
  | List [] => raise (IndexError "list index out of range")
  | List (x0 :: rest) =>
      if head_is x0 "if" then
        match rest with
        | [test; conseq; alt] =>
            let* t := eval n test env in
            eval n (if truthy t then conseq else alt) env
        | _ => raise ValueError
        end
      else if head_is x0 "define" || head_is x0 "print" then
        match rest with
        | [var; exp] =>
            let* v := eval n exp env in
            setitem env var v
        | _ => raise ValueError
        end
      else if head_is x0 "lambda" then
        match rest with
        | [parms; body] => new_procedure parms body env
        | _ => raise ValueError
        end
      else
        let* proc := eval n x0 env in
        let* args := mapM (fun exp => eval n exp env) rest in
        call (eval n) proc args
  end.
Proof. reflexivity. Qed.

Lemma bind_Ok {A B} (m : M A) (k : A -> M B) st a st1 :
  m st = (Ok a, st1) -> bind m k st = k a st1.
Proof. unfold bind. now intros ->. Qed.

Lemma bind_output {A B} (m : M A) (k : A -> M B) st :
  (forall a st1, output (k a st1).2 = output st1) ->
  output (bind m k st).2 = output (m st).2.
Proof.
  intros Hk. unfold bind. destruct (m st) as [[a| | |] st1]; simpl; auto.
Qed.

Lemma setitem_output env var v st : output (setitem env var v st).2 = output st.
Proof.
  unfold setitem. destruct var; try reflexivity.
  now destruct (heap st !! env).
Qed.

(** C2.  A list headed by [print] is evaluated by the branch of [define]:
    with any budget, second element, expression, environment and state the
    two evaluations give the same result and the same state.  Either
    evaluates the expression in the current environment and then stores the
    value under the second element in the current frame; nothing is written
    to the output beyond what evaluating the expression itself writes, and
    on success the result is [None]. *)
Theorem print_is_define :
  forall n (s e : sexp) env st,
    eval n (List [Sym "print"; s; e]) env st
      = eval n (List [Sym "define"; s; e]) env st /\
    eval (S n) (List [Sym "print"; s; e]) env st
      = (let* v := eval n e env in setitem env s v) st /\
    output (eval (S n) (List [Sym "print"; s; e]) env st).2
      = output (eval n e env st).2 /\
    (forall name v st1 fr,
       eval n e env st = (Ok v, st1) -> heap st1 !! env = Some fr ->
       eval (S n) (List [Sym "print"; Sym name; e]) env st
         = (Ok VNone,
            State (<[env := Frame (<[name := v]> (vars fr)) (outer fr)]> (heap st1))
                  (output st1) (next_id st1))).
Proof.
  intros n s e env st.
  split; [destruct n; reflexivity|].
  split; [reflexivity|].
  split.
  - rewrite eval_S. cbn [head_is String.eqb Ascii.eqb Bool.eqb orb].
    apply bind_output. intros a st1. apply setitem_output.
  - intros name v st1 fr He Hfr. rewrite eval_S.
    cbn [head_is String.eqb Ascii.eqb Bool.eqb orb].
    rewrite (bind_Ok _ _ _ _ _ He). unfold setitem. now rewrite Hfr.
Qed.

Lemma frames_kept_refl env st : frames_kept env st st.
Proof. intros l fr Hl. now exists fr. Qed.

Lemma frames_kept_heap env st st' : heap st' = heap st -> frames_kept env st st'.
Proof. intros E l fr Hl. exists fr. now rewrite E. Qed.

Lemma frames_kept_trans env st1 st2 st3 :
  frames_kept env st1 st2 -> frames_kept env st2 st3 -> frames_kept env st1 st3.
Proof.
  intros H12 H23 l fr Hl.
  destruct (H12 l fr Hl) as (fr2 & Hl2 & Ho2 & He2).
  destruct (H23 l fr2 Hl2) as (fr3 & Hl3 & Ho3 & He3).
  exists fr3. split; [exact Hl3|]. split; [congruence|].
  intros Hne. rewrite (He3 Hne). now apply He2.
Qed.

Lemma setitem_frames_kept env var v st r st' :
  setitem env var v st = (r, st') -> frames_kept env st st'.
Proof.
  unfold setitem. destruct var as [z|f|s|l].
  - intros [= _ <-]. apply frames_kept_refl.
  - intros [= _ <-]. apply frames_kept_refl.
  - destruct (heap st !! env) as [fr0|] eqn:Henv.
    + intros [= _ <-] l fr Hl. cbn [heap].
      destruct (decide (l = env)) as [->|Hne].
      * eexists. split; [apply list_lookup_insert_eq; now apply lookup_lt_Some in Henv|].
        split; [cbn; congruence|]. done.
      * exists fr. rewrite list_lookup_insert_ne by done. done.
    + intros [= _ <-]. apply frames_kept_refl.
  - intros [= _ <-]. apply frames_kept_refl.
Qed.

Lemma mapM_frames_kept {A B} (f : A -> M B) env l :
  (forall a st r st', f a st = (r, st') -> frames_kept env st st') ->
  forall st r st', mapM f l st = (r, st') -> frames_kept env st st'.
Proof.
  intros Hf. induction l as [|a l IH]; intros st r st'.
  - intros [= _ <-]. apply frames_kept_refl.
  - cbn [mapM]. unfold bind at 1.
    destruct (f a st) as [rb st1] eqn:Hfa. apply Hf in Hfa.
    destruct rb as [b| | |]; try (intros [= _ <-]; exact Hfa).
    unfold bind at 1.
    destruct (mapM f l st1) as [rbs st2] eqn:Hm. apply IH in Hm.
    destruct rbs as [bs| | |]; intros [= _ <-];
      exact (frames_kept_trans _ _ _ _ Hfa Hm).
Qed.

Lemma apply_prim_heap p args st r st' :
  apply_prim p args st = (r, st') -> heap st' = heap st.
Proof.
  unfold apply_prim, ret, raise, lift.
  destruct p; destruct args as [|a [|b [|c args]]]; now intros [= _ <-].
Qed.

(** A call leaves every frame that exists when it starts as it is, if the
    evaluator it runs the body with respects [frames_kept]. *)
Lemma call_old_frames (ev : sexp -> loc -> M value) proc args st r st' :
  (forall x env st r st', ev x env st = (r, st') -> frames_kept env st st') ->
  call ev proc args st = (r, st') ->
  forall l fr, heap st !! l = Some fr -> heap st' !! l = Some fr.
Proof.
  intros Hev. unfold call.
  destruct proc as [| | | | |p|h|id parms body cenv];
    try (unfold raise, lift; now intros [= _ <-]).
  - intros Hp l fr Hl. now rewrite (apply_prim_heap _ _ _ _ _ Hp).
  - unfold bind, lift, alloc.
    destruct (Env_init parms args (Some cenv)) as [fr0| | |];
      try (now intros [= _ <-]).
    intros Hb l fr Hl. apply Hev in Hb.
    assert (Hl1 : (heap st ++ [fr0]) !! l = Some fr)
      by (now rewrite lookup_app_l by (now apply lookup_lt_Some in Hl)).
    destruct (Hb l fr Hl1) as (fr' & Hl' & _ & Heq).
    assert (fr' = fr) as <-; [|exact Hl'].
    apply Heq. apply lookup_lt_Some in Hl. lia.
Qed.

(** Evaluating in [env] writes no frame but [env] itself (and the new
    frames it allocates). *)
Lemma eval_frames_kept n :
  forall x env st r st', eval n x env st = (r, st') -> frames_kept env st st'.
Proof.
  induction n as [|n IH]; intros x env st r st'.
  - intros [= _ <-]. apply frames_kept_refl.
  - rewrite eval_S. destruct x as [z|f|s|[|x0 rest]].
    + intros [= _ <-]. apply frames_kept_refl.
    + intros [= _ <-]. apply frames_kept_refl.
    + unfold lookup_var.
      destruct (Env_find n (heap st) env s) as [l| | |];
        try (intros [= _ <-]; apply frames_kept_refl).
      destruct (heap st !! l) as [fr|]; [destruct (vars fr !! s)|];
        intros [= _ <-]; apply frames_kept_refl.
    + intros [= _ <-]. apply frames_kept_refl.
    + destruct (head_is x0 "if").
      { destruct rest as [|test [|conseq [|alt [|? ?]]]];
          try (intros [= _ <-]; apply frames_kept_refl).
        unfold bind. destruct (eval n test env st) as [rt st1] eqn:Ht.
        apply IH in Ht.
        destruct rt as [t| | |]; try (intros [= _ <-]; exact Ht).
        intros Hb. apply IH in Hb. exact (frames_kept_trans _ _ _ _ Ht Hb). }
      destruct (head_is x0 "define" || head_is x0 "print").
      { destruct rest as [|var [|exp [|? ?]]];
          try (intros [= _ <-]; apply frames_kept_refl).
        unfold bind. destruct (eval n exp env st) as [rv st1] eqn:Hv.
        apply IH in Hv.
        destruct rv as [v| | |]; try (intros [= _ <-]; exact Hv).
        intros Hs. apply setitem_frames_kept in Hs.
        exact (frames_kept_trans _ _ _ _ Hv Hs). }
      destruct (head_is x0 "lambda").
      { destruct rest as [|parms [|body [|? ?]]];
          intros [= _ <-]; now apply frames_kept_heap. }
      unfold bind at 1. destruct (eval n x0 env st) as [rp st1] eqn:Hp.
      apply IH in Hp.
      destruct rp as [proc| | |]; try (intros [= _ <-]; exact Hp).
      unfold bind at 1.
      destruct (mapM (fun exp => eval n exp env) rest st1) as [ra st2] eqn:Ha.
      apply (mapM_frames_kept _ env) in Ha; [|intros a s0 r0 s0'; apply IH].
      destruct ra as [args| | |];
        try (intros [= _ <-]; exact (frames_kept_trans _ _ _ _ Hp Ha)).
      intros Hc.
      apply (frames_kept_trans _ _ _ _ Hp), (frames_kept_trans _ _ _ _ Ha).
      intros l fr Hl. exists fr.
      split; [exact (call_old_frames _ _ _ _ _ _ IH Hc l fr Hl)|done].
Qed.

(** ** Fuel

    A larger budget never changes an answer. *)

Lemma refines_refl {A} (m : M A) : refines m m.
Proof. now intros st r st' Hm _. Qed.

Lemma refines_bind {A B} (m m' : M A) (k k' : A -> M B) :
  refines m m' -> (forall a, refines (k a) (k' a)) -> refines (bind m k) (bind m' k').
Proof.
  intros Hm Hk st r st'. unfold bind.
  destruct (m st) as [ra st1] eqn:Em.
  destruct ra as [a|e| |].
  - rewrite (Hm _ _ _ Em) by discriminate. apply Hk.
  - rewrite (Hm _ _ _ Em) by discriminate. done.
  - intros [= <- <-]. done.
  - rewrite (Hm _ _ _ Em) by discriminate. done.
Qed.

Lemma refines_mapM {A B} (f f' : A -> M B) l :
  (forall a, refines (f a) (f' a)) -> refines (mapM f l) (mapM f' l).
Proof.
  intros Hf. induction l as [|a l IH]; [apply refines_refl|].
  cbn [mapM]. apply refines_bind; [apply Hf|]. intros b.
  apply refines_bind; [exact IH|]. intros bs. apply refines_refl.
Qed.

Lemma refines_call (ev ev' : sexp -> loc -> M value) proc args :
  (forall x env, refines (ev x env) (ev' x env)) ->
  refines (call ev proc args) (call ev' proc args).
Proof.
  intros Hev. destruct proc; try apply refines_refl.
  cbn [call]. apply refines_bind; [apply refines_refl|]. intros fr.
  apply refines_bind; [apply refines_refl|]. intros l. apply Hev.
Qed.

Lemma Env_find_fuel_S n h l s :
  Env_find n h l s <> OutOfFuel -> Env_find (S n) h l s = Env_find n h l s.
Proof.
  revert l. induction n as [|n IH]; intros l; [now cbn|].
  cbn [Env_find]. destruct (h !! l) as [fr|]; [|reflexivity].
  destruct (vars fr !! s); [reflexivity|].
  destruct (outer fr) as [o|]; [apply IH|reflexivity].
Qed.

Lemma refines_lookup_var n env s : refines (lookup_var n env s) (lookup_var (S n) env s).
Proof.
  intros st r st'. unfold lookup_var.
  destruct (Env_find n (heap st) env s) as [l|e| |] eqn:Ef;
    try (rewrite Env_find_fuel_S by (rewrite Ef; discriminate); now rewrite Ef).
  now intros [= <- <-].
Qed.

Lemma eval_fuel_S n x env : refines (eval n x env) (eval (S n) x env).
Proof.
  revert x env. induction n as [|n IH]; intros x env.
  - intros st r st' [= <- <-]. done.
  - rewrite (eval_S (S n)), (eval_S n).
    destruct x as [z|f|s|[|x0 rest]]; try apply refines_refl.
    + apply refines_lookup_var.
    + destruct (head_is x0 "if").
      { destruct rest as [|test [|conseq [|alt [|? ?]]]]; try apply refines_refl.
        apply refines_bind; [apply IH|]. intros t. apply IH. }
      destruct (head_is x0 "define" || head_is x0 "print").
      { destruct rest as [|var [|exp [|? ?]]]; try apply refines_refl.
        apply refines_bind; [apply IH|]. intros v. apply refines_refl. }
      destruct (head_is x0 "lambda"); [apply refines_refl|].
      apply refines_bind; [apply IH|]. intros proc.
      apply refines_bind; [apply refines_mapM; intros a; apply IH|]. intros args.
      apply refines_call. exact IH.
Qed.

Lemma eval_fuel_le n m x env : (n <= m)%nat -> refines (eval n x env) (eval m x env).
Proof.
  induction 1 as [|m Hle IH]; [apply refines_refl|].
  intros st r st' He Hr. apply eval_fuel_S; [|exact Hr]. now apply IH.
Qed.

(** ** Evaluation rules

    The evaluator's branches as rules on [evaluates]: what each form
    evaluates to once the budget is large enough. *)

Lemma evaluates_int z env st : evaluates (Int z) env st (VInt z) st.
Proof. exists 1%nat. intros [|n] Hn; [lia|reflexivity]. Qed.

Lemma evaluates_float f env st : evaluates (Float f) env st (VFloat f) st.
Proof. exists 1%nat. intros [|n] Hn; [lia|reflexivity]. Qed.

Lemma evaluates_sym_here s env st fr v :
  heap st !! env = Some fr -> vars fr !! s = Some v ->
  evaluates (Sym s) env st v st.
Proof.
  intros Hfr Hv. exists 2%nat. intros [|[|n]] Hn; [lia..|].
  rewrite eval_S. unfold lookup_var. cbn [Env_find]. now rewrite Hfr, Hv, Hfr, Hv.
Qed.

Lemma evaluates_sym_outer s env st fr o v :
  heap st !! env = Some fr -> vars fr !! s = None -> outer fr = Some o ->
  evaluates (Sym s) o st v st ->
  evaluates (Sym s) env st v st.
Proof.
  intros Hfr Hs Ho [N HN]. exists (S (S N)). intros [|[|n]] Hn; [lia..|].
  specialize (HN (S n) ltac:(lia)). rewrite eval_S in HN |- *.
  unfold lookup_var in *. cbn [Env_find]. now rewrite Hfr, Hs, Ho.
Qed.

Lemma evaluates_if test conseq alt env st t st1 v st2 :
  evaluates test env st t st1 ->
  evaluates (if truthy t then conseq else alt) env st1 v st2 ->
  evaluates (List [Sym "if"; test; conseq; alt]) env st v st2.
Proof.
  intros [N1 H1] [N2 H2]. exists (S (Nat.max N1 N2)). intros [|n] Hn; [lia|].
  rewrite eval_S. cbn [head_is String.eqb Ascii.eqb Bool.eqb].
  rewrite (bind_Ok _ _ _ _ _ (H1 n ltac:(lia))). apply H2. lia.
Qed.

Lemma evaluates_define s e env st v st1 fr :
  evaluates e env st v st1 -> heap st1 !! env = Some fr ->
  evaluates (List [Sym "define"; Sym s; e]) env st VNone
    (State (<[env := Frame (<[s := v]> (vars fr)) (outer fr)]> (heap st1))
           (output st1) (next_id st1)).
Proof.
  intros [N1 H1] Hfr. exists (S N1). intros [|n] Hn; [lia|].
  rewrite eval_S. cbn [head_is String.eqb Ascii.eqb Bool.eqb orb].
  rewrite (bind_Ok _ _ _ _ _ (H1 n ltac:(lia))). unfold setitem. now rewrite Hfr.
Qed.

Lemma evaluates_lambda parms body env st :
  evaluates (List [Sym "lambda"; parms; body]) env st
    (VProc (next_id st) parms body env)
    (State (heap st) (output st) (S (next_id st))).
Proof. exists 1%nat. intros [|n] Hn; [lia|reflexivity]. Qed.

Lemma evaluates_all_nil env st : evaluates_all [] env st [] st.
Proof. now exists 0%nat. Qed.

Lemma evaluates_all_cons x xs env st v st1 vs st2 :
  evaluates x env st v st1 -> evaluates_all xs env st1 vs st2 ->
  evaluates_all (x :: xs) env st (v :: vs) st2.
Proof.
  intros [N1 H1] [N2 H2]. exists (Nat.max N1 N2). intros n Hn. cbn [mapM].
  rewrite (bind_Ok _ _ _ _ _ (H1 n ltac:(lia))).
  now rewrite (bind_Ok _ _ _ _ _ (H2 n ltac:(lia))).
Qed.

Lemma evaluates_app x0 rest env st proc st1 args st2 v st3 :
  special x0 = false ->
  evaluates x0 env st proc st1 ->
  evaluates_all rest env st1 args st2 ->
  calls proc args st2 v st3 ->
  evaluates (List (x0 :: rest)) env st v st3.
Proof.
  unfold special. intros Hsp [N1 H1] [N2 H2] [N3 H3].
  apply orb_false_elim in Hsp as [Hsp Hl].
  apply orb_false_elim in Hsp as [Hsp Hp].
  apply orb_false_elim in Hsp as [Hi Hd].
  exists (S (Nat.max N1 (Nat.max N2 N3))). intros [|n] Hn; [lia|].
  rewrite eval_S, Hi, Hd, Hp, Hl. cbn [orb].
  rewrite (bind_Ok _ _ _ _ _ (H1 n ltac:(lia))).
  rewrite (bind_Ok _ _ _ _ _ (H2 n ltac:(lia))).
  apply H3. lia.
Qed.

Lemma calls_procedure id parms body cenv args st fr v st' :
  Env_init parms args (Some cenv) = Ok fr ->
  evaluates body (length (heap st))
    (State (heap st ++ [fr]) (output st) (next_id st)) v st' ->
  calls (VProc id parms body cenv) args st v st'.
Proof.
  intros Hfr [N HN]. exists N. intros n Hn. unfold call, bind, lift, alloc.
  rewrite Hfr. now apply HN.
Qed.

Lemma calls_prim p args st v st' :
  apply_prim p args st = (Ok v, st') -> calls (VPrim p) args st v st'.
Proof. intros Hp. now exists 0%nat. Qed.

(** ** The global frame *)

Lemma standard_env_prim name v :
  (name, v) ∈ prim_table -> vars standard_env !! name = Some v.
Proof.
  unfold standard_env, prim_table, dict_update. cbn [vars fold_left fst snd].
  generalize (fold_left (fun d kv => <[kv.1 := kv.2]> d) math_vars
                (∅ : gmap string value)).
  intros m Hin.
  repeat (apply elem_of_cons in Hin as [[= -> ->]|Hin];
    [repeat first [apply lookup_insert_eq | rewrite lookup_insert_ne by discriminate]|]).
  now apply elem_of_nil in Hin.
Qed.

(** ** Closures that double *)

Lemma doubles_mono n h h' p :
  h `prefix_of` h' -> doubles n h p -> doubles n h' p.
Proof. intros Hh Hp st v v' Hst. apply Hp. now transitivity h'. Qed.

Lemma iter_double_add n m v v'' :
  iter_double (n + m) v = Ok v'' ->
  exists v', iter_double n v = Ok v' /\ iter_double m v' = Ok v''.
Proof.
  revert v. induction n as [|n IH]; intros v; cbn [Nat.add iter_double].
  - intros Hm. now exists v.
  - destruct (binop OpMul (VInt 2) v); try discriminate. apply IH.
Qed.

Lemma iter_double_int n z :
  iter_double n (VInt z) = Ok (VInt (z * 2 ^ Z.of_nat n)).
Proof.
  revert z. induction n as [|n IH]; intros z.
  - cbn [iter_double]. f_equal. f_equal. change (Z.of_nat 0) with 0%Z. lia.
  - cbn [iter_double binop as_int int_op]. rewrite IH. f_equal. f_equal.
    rewrite Nat2Z.inj_succ, Z.pow_succ_r by lia. lia.
Qed.

(** The closure of [twice], created in a global frame that binds [*] to the
    product. *)
Lemma twice_doubles id g h :
  h !! global_env = Some g -> vars g !! "*" = Some (VPrim OpMul) ->
  doubles 1 h (VProc id (List [Sym "x"]) twice_body global_env).
Proof.
  intros Hg Hmul st v v' Hst Hv.
  cbn [iter_double] in Hv.
  destruct (binop OpMul (VInt 2) v) as [w| | |] eqn:Hw; try discriminate.
  injection Hv as ->.
  set (fr := Frame (<["x" := v]> ∅) (Some global_env)).
  set (st1 := State (heap st ++ [fr]) (output st) (next_id st)).
  assert (Hfr : heap st1 !! length (heap st) = Some fr)
    by (apply list_lookup_middle; reflexivity).
  assert (Hg1 : heap st1 !! global_env = Some g).
  { apply lookup_app_l_Some. exact (prefix_lookup_Some _ _ _ _ Hg Hst). }
  exists st1. split; [|now apply prefix_app_r].
  apply (calls_procedure _ _ _ _ _ _ fr); [reflexivity|]. fold st1.
  apply (evaluates_app _ _ _ _ (VPrim OpMul) st1 [VInt 2; v] st1); [reflexivity| | |].
  - apply (evaluates_sym_outer _ _ _ fr global_env); [exact Hfr|reflexivity|reflexivity|].
    now apply (evaluates_sym_here _ _ _ g).
  - apply (evaluates_all_cons _ _ _ _ _ st1); [apply evaluates_int|].
    apply (evaluates_all_cons _ _ _ _ _ st1); [|apply evaluates_all_nil].
    apply (evaluates_sym_here _ _ _ fr); [exact Hfr|apply lookup_insert_eq].
  - apply calls_prim. unfold apply_prim, lift. now rewrite Hw.
Qed.

(** The closure [(lambda (x) (f (f x)))] created in a frame that binds [f]
    to a closure that doubles [n] times: it doubles [n + n] times. *)
Lemma repeat_doubles n id h l fr p :
  h !! l = Some fr -> vars fr !! "f" = Some p -> doubles n h p ->
  doubles (n + n) h (VProc id (List [Sym "x"]) repeat_inner_body l).
Proof.
  intros Hl Hf Hp st v v'' Hst Hv.
  apply iter_double_add in Hv as (v' & Hv1 & Hv2).
  set (fx := Frame (<["x" := v]> ∅) (Some l)).
  set (st1 := State (heap st ++ [fx]) (output st) (next_id st)).
  assert (Hst1 : heap st `prefix_of` heap st1) by (now apply prefix_app_r).
  destruct (Hp st1 v v' ltac:(now transitivity (heap st)) Hv1) as (st2 & Hc1 & Hst2).
  destruct (Hp st2 v' v'' ltac:(now transitivity (heap st); [|transitivity (heap st1)]) Hv2)
    as (st3 & Hc2 & Hst3).
  exists st3. split; [|now transitivity (heap st1); [|transitivity (heap st2)]].
  assert (Hfx : heap st1 !! length (heap st) = Some fx)
    by (apply list_lookup_middle; reflexivity).
  assert (Hl1 : heap st1 !! l = Some fr).
  { apply lookup_app_l_Some. exact (prefix_lookup_Some _ _ _ _ Hl Hst). }
  assert (Hf1 : evaluates (Sym "f") (length (heap st)) st1 p st1).
  { apply (evaluates_sym_outer _ _ _ fx l); [exact Hfx|reflexivity|reflexivity|].
    now apply (evaluates_sym_here _ _ _ fr). }
  apply (calls_procedure _ _ _ _ _ _ fx); [reflexivity|]. fold st1.
  apply (evaluates_app _ _ _ _ p st1 [v'] st2); [reflexivity|exact Hf1| |exact Hc2].
  apply (evaluates_all_cons _ _ _ _ _ st2); [|apply evaluates_all_nil].
  apply (evaluates_app _ _ _ _ p st1 [v] st1); [reflexivity|exact Hf1| |exact Hc1].
  apply (evaluates_all_cons _ _ _ _ _ st1); [|apply evaluates_all_nil].
  apply (evaluates_sym_here _ _ _ fx); [exact Hfx|apply lookup_insert_eq].
Qed.

(** In a state whose global frame binds [*], [twice] and [repeat] as the two
    definitions leave them, [(repeat ... twice)] with [k] applications
    evaluates to a closure that doubles [2 ^ k] times. *)
Lemma repeated_doubles g i j k :
  vars g !! "*" = Some (VPrim OpMul) ->
  vars g !! "twice" = Some (VProc i (List [Sym "x"]) twice_body global_env) ->
  vars g !! "repeat" = Some (VProc j (List [Sym "f"]) repeat_body global_env) ->
  forall st, heap st !! global_env = Some g ->
    exists p st', evaluates (repeated k) global_env st p st' /\
      heap st `prefix_of` heap st' /\ doubles (2 ^ k) (heap st') p.
Proof.
  intros Hmul Htwice Hrepeat. induction k as [|k IH]; intros st Hg.
  - exists (VProc i (List [Sym "x"]) twice_body global_env), st.
    split; [now apply (evaluates_sym_here _ _ _ g)|]. split; [done|].
    now apply (twice_doubles _ g).
  - destruct (IH st Hg) as (p & st1 & Hev & Hst1 & Hp).
    set (ff := Frame (<["f" := p]> ∅) (Some global_env)).
    set (st2 := State (heap st1 ++ [ff]) (output st1) (next_id st1)).
    set (q := VProc (next_id st1) (List [Sym "x"]) repeat_inner_body (length (heap st1))).
    set (st3 := State (heap st2) (output st2) (S (next_id st2))).
    exists q, st3. split; [|split].
    + cbn [repeated].
      apply (evaluates_app _ _ _ _ (VProc j (List [Sym "f"]) repeat_body global_env)
               st [p] st1); [reflexivity| | |].
      * now apply (evaluates_sym_here _ _ _ g).
      * apply (evaluates_all_cons _ _ _ _ _ st1); [exact Hev|apply evaluates_all_nil].
      * apply (calls_procedure _ _ _ _ _ _ ff); [reflexivity|].
        apply evaluates_lambda.
    + transitivity (heap st1); [exact Hst1|]. now apply prefix_app_r.
    + replace (2 ^ S k)%nat with (2 ^ k + 2 ^ k)%nat by (cbn [Nat.pow]; lia).
      apply (repeat_doubles _ _ _ _ ff p).
      * apply list_lookup_middle. reflexivity.
      * apply lookup_insert_eq.
      * apply (doubles_mono _ (heap st1)); [now apply prefix_app_r|exact Hp].
Qed.

Lemma defs_evaluate :
  evaluates define_twice global_env init_state VNone
    (State [Frame (<["twice" := twice_closure]> (vars standard_env)) None] [] 1) /\
  evaluates define_repeat global_env
    (State [Frame (<["twice" := twice_closure]> (vars standard_env)) None] [] 1)
    VNone defs_state.
Proof.
  split.
  - exact (evaluates_define "twice" twice_lambda global_env init_state twice_closure
             (State [standard_env] [] 1) standard_env
             (evaluates_lambda _ _ _ _) eq_refl).
  - exact (evaluates_define "repeat" repeat_lambda global_env
             (State [Frame (<["twice" := twice_closure]> (vars standard_env)) None] [] 1)
             repeat_closure
             (State [Frame (<["twice" := twice_closure]> (vars standard_env)) None] [] 2)
             (Frame (<["twice" := twice_closure]> (vars standard_env)) None)
             (evaluates_lambda _ _ _ _) eq_refl).
Qed.

Lemma repeated_applied g i j k x v v' :
  vars g !! "*" = Some (VPrim OpMul) ->
  vars g !! "twice" = Some (VProc i (List [Sym "x"]) twice_body global_env) ->
  vars g !! "repeat" = Some (VProc j (List [Sym "f"]) repeat_body global_env) ->
  forall st, heap st !! global_env = Some g ->
    (forall st1, evaluates x global_env st1 v st1) ->
    iter_double (2 ^ k) v = Ok v' ->
    exists st', evaluates (List [repeated k; x]) global_env st v' st'.
Proof.
  intros Hmul Htwice Hrepeat st Hg Hx Hv.
  destruct (repeated_doubles g i j k Hmul Htwice Hrepeat st Hg)
    as (p & st1 & Hev & Hst1 & Hp).
  destruct (Hp st1 v v' ltac:(done) Hv) as (st2 & Hc & _).
  exists st2.
  apply (evaluates_app _ _ _ _ p st1 [v] st1); [|exact Hev| |exact Hc].
  - now destruct k.
  - apply (evaluates_all_cons _ _ _ _ _ st1); [apply Hx|apply evaluates_all_nil].
Qed.

(** ** Env.__init__ on a list of Symbols *)

Lemma update_pairs_syms d (ps : list string) (vs : list value) :
  update_pairs d (zip (Sym <$> ps) vs) = Ok (dict_update d (zip ps vs)).
Proof.
  revert d vs. induction ps as [|x ps IH]; intros d [|v vs]; try reflexivity.
  cbn [fmap list_fmap zip zip_with update_pairs]. apply IH.
Qed.

Lemma Env_init_syms (ps : list string) (vs : list value) o :
  Env_init (List (Sym <$> ps)) vs o = Ok (Frame (dict_update ∅ (zip ps vs)) o).
Proof. unfold Env_init. cbn [iter_parms]. now rewrite update_pairs_syms. Qed.

Lemma dict_update_lookup_ne d kvs (x : string) :
  x ∉ kvs.*1 -> dict_update d kvs !! x = d !! x.
Proof.
  unfold dict_update. revert d. induction kvs as [|[k v] kvs IH]; intros d Hx.
  - reflexivity.
  - cbn [fold_left fst snd]. apply not_elem_of_cons in Hx as [Hk Hx].
    rewrite IH by exact Hx. now apply lookup_insert_ne.
Qed.

Lemma dict_update_dom d kvs :
  dom (dict_update d kvs) = dom d ∪ list_to_set kvs.*1.
Proof.
  unfold dict_update. revert d. induction kvs as [|[k v] kvs IH]; intros d.
  - cbn [fold_left fmap list_fmap list_to_set]. now rewrite (right_id_L ∅ (∪)).
  - cbn [fold_left fst snd fmap list_fmap list_to_set]. rewrite IH, dom_insert_L.
    now rewrite (comm_L (∪) {[k]} (dom d)), (assoc_L (∪)).
Qed.

Lemma zip_fst_take {A B} (l : list A) (k : list B) :
  (zip l k).*1 = take (length k) l.
Proof.
  revert k. induction l as [|a l IH]; intros [|b k]; try reflexivity.
  cbn. now rewrite <- IH.
Qed.

Lemma dict_update_positional d (ps : list string) (vs : list value) i x v :
  NoDup ps -> ps !! i = Some x -> vs !! i = Some v ->
  dict_update d (zip ps vs) !! x = Some v.
Proof.
  revert d vs i. induction ps as [|y ps IH]; intros d vs i Hnd Hx Hv; [done|].
  destruct vs as [|w vs]; [done|].
  apply NoDup_cons in Hnd as [Hy Hnd].
  unfold dict_update. cbn [zip zip_with fold_left fst snd].
  destruct i as [|i].
  - injection Hx as ->. injection Hv as ->.
    fold (dict_update (<[x := v]> d) (zip ps vs)).
    rewrite dict_update_lookup_ne; [apply lookup_insert_eq|].
    rewrite zip_fst_take. intros Hin. apply Hy. exact (subseteq_take _ _ _ Hin).
  - exact (IH _ _ i Hnd Hx Hv).
Qed.

Lemma dict_update_last d (ps : list string) (vs : list value) i x v :
  ps !! i = Some x -> vs !! i = Some v ->
  (forall j, (i < j)%nat -> (j < length vs)%nat -> ps !! j <> Some x) ->
  dict_update d (zip ps vs) !! x = Some v.
Proof.
  revert d vs i. induction ps as [|y ps IH]; intros d vs i Hx Hv Hlast; [done|].
  destruct vs as [|w vs]; [done|].
  unfold dict_update. cbn [zip zip_with fold_left fst snd].
  destruct i as [|i].
  - injection Hx as ->. injection Hv as ->.
    fold (dict_update (<[x := v]> d) (zip ps vs)).
    rewrite dict_update_lookup_ne; [apply lookup_insert_eq|].
    rewrite zip_fst_take. intros Hin.
    apply list_elem_of_lookup in Hin as [j Hj].
    apply lookup_take_Some in Hj as [Hj Hlt].
    apply (Hlast (S j)); [lia|cbn [length]; lia|exact Hj].
  - apply (IH _ _ i Hx Hv). intros j Hij Hj.
    apply (Hlast (S j)); [lia|cbn [length]; lia].
Qed.

(** C4, as the code has it.  Invoking a Procedure builds one new frame
    from [parms] and the arguments, with the Procedure's captured
    environment as [outer] (the caller's environment is no input of the
    call), and evaluates the body in that frame.  A parameter Symbol is
    bound to the argument at the last position where it occurs among the
    parameters that have an argument; so distinct parameter Symbols are
    bound positionally, and a repeated one takes the later argument.  With
    [twice] and [repeat] defined in a new interpreter (or in any state whose
    global frame binds [*], [twice] and [repeat] that way),
    [((repeat ... twice) x)] with [k] applications of [repeat] evaluates,
    given enough fuel, to [2 ^ k] successive products of [x] by 2: for an
    integer [x] that is [x * 2 ^ (2 ^ k)]; for a float [x] it is what the
    host's product makes of the same doublings, when none of them raises,
    and not in general the closed form.  In particular [(twice 5)] is 10,
    [((repeat twice) 10)] is 40 and [((repeat (repeat twice)) 10)] is
    160. *)
Theorem repeat_twice_power :
  (forall ev id parms body cenv args st fr,
     Env_init parms args (Some cenv) = Ok fr ->
     outer fr = Some cenv /\
     call ev (VProc id parms body cenv) args st
       = ev body (length (heap st))
           (State (heap st ++ [fr]) (output st) (next_id st))) /\
  (forall (ps : list string) vs cenv,
     exists fr, Env_init (List (Sym <$> ps)) vs (Some cenv) = Ok fr /\
       (forall i x v, ps !! i = Some x -> vs !! i = Some v ->
          (forall j, (i < j)%nat -> (j < length vs)%nat -> ps !! j <> Some x) ->
          vars fr !! x = Some v) /\
       (NoDup ps -> forall i x v, ps !! i = Some x -> vs !! i = Some v ->
          vars fr !! x = Some v)) /\
  (exists st1,
     evaluates define_twice global_env init_state VNone st1 /\
     evaluates define_repeat global_env st1 VNone defs_state) /\
  (forall g i j st,
     vars g !! "*" = Some (VPrim OpMul) ->
     vars g !! "twice" = Some (VProc i (List [Sym "x"]) twice_body global_env) ->
     vars g !! "repeat" = Some (VProc j (List [Sym "f"]) repeat_body global_env) ->
     heap st !! global_env = Some g ->
     forall k z, exists st',
       evaluates (List [repeated k; Int z]) global_env st
         (VInt (z * 2 ^ 2 ^ Z.of_nat k)) st') /\
  (forall k z, exists st',
     evaluates (List [repeated k; Int z]) global_env defs_state
       (VInt (z * 2 ^ 2 ^ Z.of_nat k)) st') /\
  (forall k f v, iter_double (2 ^ k) (VFloat f) = Ok v ->
     exists st', evaluates (List [repeated k; Float f]) global_env defs_state v st') /\
  parse "(twice 5)" = Ok (List [repeated 0; Int 5]) /\
  parse "((repeat twice) 10)" = Ok (List [repeated 1; Int 10]) /\
  parse "((repeat (repeat twice)) 10)" = Ok (List [repeated 2; Int 10]) /\
  (exists st', evaluates (List [repeated 0; Int 5]) global_env defs_state (VInt 10) st') /\
  (exists st', evaluates (List [repeated 1; Int 10]) global_env defs_state (VInt 40) st') /\
  (exists st', evaluates (List [repeated 2; Int 10]) global_env defs_state (VInt 160) st').
Proof.
  assert (Hgen : forall g i j st,
     vars g !! "*" = Some (VPrim OpMul) ->
     vars g !! "twice" = Some (VProc i (List [Sym "x"]) twice_body global_env) ->
     vars g !! "repeat" = Some (VProc j (List [Sym "f"]) repeat_body global_env) ->
     heap st !! global_env = Some g ->
     forall k z, exists st',
       evaluates (List [repeated k; Int z]) global_env st
         (VInt (z * 2 ^ 2 ^ Z.of_nat k)) st').
  { intros g i j st Hmul Htw Hrp Hg k z.
    apply (repeated_applied g i j k (Int z) (VInt z)); try assumption.
    - intros st1. apply evaluates_int.
    - rewrite iter_double_int. do 3 f_equal.
      rewrite Nat2Z.inj_pow. reflexivity. }
  assert (Hmul : vars (Frame (<["repeat" := repeat_closure]>
                    (<["twice" := twice_closure]> (vars standard_env))) None) !! "*"
                 = Some (VPrim OpMul)).
  { cbn [vars]. rewrite !lookup_insert_ne by discriminate.
    apply standard_env_prim. unfold prim_table. repeat constructor. }
  assert (Hdefs : forall k z, exists st',
     evaluates (List [repeated k; Int z]) global_env defs_state
       (VInt (z * 2 ^ 2 ^ Z.of_nat k)) st').
  { intros k z. eapply Hgen; [exact Hmul| | |reflexivity].
    - cbn [vars]. rewrite lookup_insert_ne by discriminate. apply lookup_insert_eq.
    - cbn [vars]. apply lookup_insert_eq. }
  split.
  { intros ev id parms body cenv args st fr Hfr. split.
    - unfold Env_init in Hfr. destruct (iter_parms parms); try discriminate.
      destruct (update_pairs _ _); try discriminate. now injection Hfr as <-.
    - unfold call, bind, lift, alloc. now rewrite Hfr. }
  split.
  { intros ps vs cenv. eexists. split; [apply Env_init_syms|]. split.
    - intros i x v Hx Hv Hlast. cbn [vars]. now apply (dict_update_last _ _ _ i).
    - intros Hnd i x v Hx Hv. cbn [vars]. now apply (dict_update_positional _ _ _ i). }
  split; [eexists; exact defs_evaluate|].
  split; [exact Hgen|].
  split; [exact Hdefs|].
  split.
  { intros k f v Hv.
    eapply (repeated_applied _ 0 1 k (Float f) (VFloat f));
      [exact Hmul| | |reflexivity| |exact Hv].
    - cbn [vars]. rewrite lookup_insert_ne by discriminate. apply lookup_insert_eq.
    - cbn [vars]. apply lookup_insert_eq.
    - intros st1. apply evaluates_float. }
  split; [reflexivity|]. split; [reflexivity|]. split; [reflexivity|].
  split; [exact (Hdefs 0%nat 5)|]. split; [exact (Hdefs 1%nat 10)|exact (Hdefs 2%nat 10)].
Qed.

(** C9, as the code has it.  A Procedure whose parameters are the Symbols
    [ps], called on the values [vs], raises no error of its own whatever the
    two lengths are: the call is the evaluation of the body in one new frame
    whose [outer] is the captured environment.  The frame binds exactly the
    first [min (length ps) (length vs)] parameters, positionally when they
    are distinct; arguments beyond the parameters are dropped.  A parameter
    beyond the arguments is not bound in the new frame, so a reference to it
    in the body is resolved in the captured environment, as any free
    variable is: it fails there as an unbound symbol, or finds a binding of
    that name in an enclosing frame. *)
Theorem procedure_arity_unchecked :
  forall ev id (ps : list string) body cenv (vs : list value) st,
    call ev (VProc id (List (Sym <$> ps)) body cenv) vs st
      = ev body (length (heap st))
          (State (heap st ++ [Frame (dict_update ∅ (zip ps vs)) (Some cenv)])
                 (output st) (next_id st)) /\
    dom (dict_update ∅ (zip ps vs))
      = list_to_set (take (Nat.min (length ps) (length vs)) ps) /\
    (NoDup ps -> forall i x v, ps !! i = Some x -> vs !! i = Some v ->
       dict_update ∅ (zip ps vs) !! x = Some v) /\
    (forall x, x ∉ take (length vs) ps ->
       dict_update ∅ (zip ps vs) !! x = None /\
       forall n,
         eval (S (S n)) (Sym x) (length (heap st))
           (State (heap st ++ [Frame (dict_update ∅ (zip ps vs)) (Some cenv)])
                  (output st) (next_id st))
         = eval (S n) (Sym x) cenv
             (State (heap st ++ [Frame (dict_update ∅ (zip ps vs)) (Some cenv)])
                    (output st) (next_id st))).
Proof.
  intros ev id ps body cenv vs st.
  assert (Hnone : forall x, x ∉ take (length vs) ps ->
            dict_update (∅ : gmap string value) (zip ps vs) !! x = None).
  { intros x Hx. rewrite dict_update_lookup_ne; [apply lookup_empty|].
    now rewrite zip_fst_take. }
  split; [|split; [|split; [|split]]].
  - unfold call, bind, lift, alloc. now rewrite Env_init_syms.
  - rewrite dict_update_dom, dom_empty_L, (left_id_L ∅ (∪)), zip_fst_take.
    f_equal. destruct (Nat.le_ge_cases (length ps) (length vs)) as [Hle|Hle].
    + rewrite Nat.min_l by exact Hle. now rewrite !take_ge by lia.
    + now rewrite Nat.min_r by exact Hle.
  - intros Hnd i x v. now apply dict_update_positional.
  - now apply Hnone.
  - intros n. rewrite (eval_S (S n)), (eval_S n). unfold lookup_var.
    cbn [Env_find heap]. rewrite list_lookup_middle by reflexivity.
    cbn [vars outer]. now rewrite (Hnone x).
Qed.

(** ** Env.find along a chain *)

Lemma Env_find_unbound h env frs s :
  chain h env frs -> Forall (fun fr => vars fr !! s = None) frs ->
  forall n, (length frs <= n)%nat ->
    Env_find n h env s = Raise (AttributeError "This arithmetic symbol does not exist").
Proof.
  induction 1 as [l fr Hl Ho|l fr o frs Hl Ho Hc IH]; intros Hall n Hn.
  - destruct n as [|n]; [cbn in Hn; lia|].
    apply Forall_cons in Hall as [Hs _]. cbn [Env_find]. now rewrite Hl, Hs, Ho.
  - destruct n as [|n]; [cbn in Hn; lia|].
    apply Forall_cons in Hall as [Hs Hall]. cbn [Env_find]. rewrite Hl, Hs, Ho.
    apply IH; [exact Hall|]. cbn in Hn. lia.
Qed.

Lemma Env_find_bound h env frs s pre fr post v :
  chain h env frs -> frs = pre ++ fr :: post ->
  Forall (fun f => vars f !! s = None) pre -> vars fr !! s = Some v ->
  forall n, (length pre < n)%nat ->
    exists l, Env_find n h env s = Ok l /\ h !! l = Some fr.
Proof.
  intros Hc. revert pre.
  induction Hc as [l fr0 Hl Ho|l fr0 o frs Hl Ho Hc IH]; intros pre Hfrs Hall Hv n Hn.
  - destruct n as [|n]; [lia|]. destruct pre as [|f0 pre].
    + injection Hfrs as -> _. exists l. cbn [Env_find]. now rewrite Hl, Hv.
    + injection Hfrs as _ Hfrs. now destruct pre.
  - destruct n as [|n]; [lia|]. destruct pre as [|f0 pre].
    + injection Hfrs as -> _. exists l. cbn [Env_find]. now rewrite Hl, Hv.
    + injection Hfrs as -> Hfrs. apply Forall_cons in Hall as [Hs Hall].
      cbn [Env_find]. rewrite Hl, Hs, Ho.
      apply (IH pre Hfrs Hall Hv). cbn in Hn. lia.
Qed.

(** C5.  Along every environment chain, a symbol that no frame of the chain
    binds (the root included) makes the evaluation of that symbol raise the
    unbound-symbol error of [Env.find], an AttributeError, and nothing is
    returned in its place; a symbol that some frame binds evaluates to the
    value in the innermost such frame.  The state is left as it was. *)
Theorem symbol_resolution :
  forall st env frs s, chain (heap st) env frs ->
    ((forall fr, fr ∈ frs -> vars fr !! s = None) ->
     forall n, (length frs < n)%nat ->
       eval n (Sym s) env st
         = (Raise (AttributeError "This arithmetic symbol does not exist"), st)) /\
    (forall pre fr post v, frs = pre ++ fr :: post ->
       (forall f, f ∈ pre -> vars f !! s = None) -> vars fr !! s = Some v ->
       forall n, (S (length pre) < n)%nat ->
         eval n (Sym s) env st = (Ok v, st)).
Proof.
  intros st env frs s Hc. split.
  - intros Hall [|n] Hn; [lia|]. rewrite eval_S. unfold lookup_var.
    rewrite (Env_find_unbound _ _ _ _ Hc); [reflexivity| |lia].
    now apply Forall_forall.
  - intros pre fr post v Hfrs Hall Hv [|n] Hn; [lia|]. rewrite eval_S.
    unfold lookup_var.
    destruct (Env_find_bound _ _ _ s pre fr post v Hc Hfrs) with (n := n)
      as (l & -> & Hl); [now apply Forall_forall|exact Hv|lia|].
    now rewrite Hl, Hv.
Qed.

(** C7, as the code has it.  [(define s e)] evaluates [e] in the current
    environment and then writes the value under [s] in the current frame.
    That write changes the binding of [s] in the current frame and nothing
    else: against the state that evaluating [e] left, every other binding of
    the current frame, its [outer] link, every other frame, the output and
    the Procedure count are the same.  The whole evaluation changes no frame
    but the current one, so a binding of [s] in an outer frame is shadowed
    and stays. *)
Theorem define_writes_current_frame :
  forall n s e env st,
    eval (S n) (List [Sym "define"; Sym s; e]) env st
      = (let* v := eval n e env in setitem env (Sym s) v) st /\
    (forall v st1 fr,
       eval n e env st = (Ok v, st1) -> heap st1 !! env = Some fr ->
       exists st' fr',
         eval (S n) (List [Sym "define"; Sym s; e]) env st = (Ok VNone, st') /\
         heap st' !! env = Some fr' /\
         vars fr' !! s = Some v /\
         (forall s', s' <> s -> vars fr' !! s' = vars fr !! s') /\
         outer fr' = outer fr /\
         (forall l, l <> env -> heap st' !! l = heap st1 !! l) /\
         output st' = output st1 /\ next_id st' = next_id st1) /\
    (forall r st',
       eval (S n) (List [Sym "define"; Sym s; e]) env st = (r, st') ->
       forall l fr, l <> env -> heap st !! l = Some fr -> heap st' !! l = Some fr).
Proof.
  intros n s e env st. split; [reflexivity|]. split.
  - intros v st1 fr He Hfr.
    exists (State (<[env := Frame (<[s := v]> (vars fr)) (outer fr)]> (heap st1))
                  (output st1) (next_id st1)),
           (Frame (<[s := v]> (vars fr)) (outer fr)).
    split; [|split; [|split; [|split; [|split; [|split; [|split]]]]]];
      try reflexivity.
    + rewrite eval_S. cbn [head_is String.eqb Ascii.eqb Bool.eqb orb].
      rewrite (bind_Ok _ _ _ _ _ He). unfold setitem. now rewrite Hfr.
    + cbn [heap]. apply list_lookup_insert_eq. now apply lookup_lt_Some in Hfr.
    + apply lookup_insert_eq.
    + intros s' Hs'. cbn [vars]. now apply lookup_insert_ne.
    + intros l Hl. cbn [heap]. now apply list_lookup_insert_ne.
  - intros r st' He l fr Hl Hfr.
    destruct (eval_frames_kept _ _ _ _ _ _ He l fr Hfr) as (fr' & Hfr' & _ & Heq).
    now rewrite (Heq Hl) in Hfr'.
Qed.

(** C6.  A list headed by [and] or [or] is an ordinary application: the
    head is evaluated, then both operand expressions, left to right and
    each in the state the previous one left, and only then is the callee
    invoked on the two values; no test of the first value comes in between.
    The primitives are the host's [&], [|] and truth negation, not the
    boolean connectives: [and] and [or] are the bitwise operations on
    integers, a bool counting as 0 or 1, and the result is a bool only when
    both operands are (then the conjunction or disjunction); [not] returns
    a bool for every value, True for [None], [False], 0, the empty string
    and what the host counts as false among its floats and objects, False
    for every other value.  In a new interpreter [(and 1 0)] is 0,
    [(or 1 0)] is 1 and [(not 1)] is False, but [(and 2 1)] is 0 and
    [(or 2 1)] is 3; and with a first operand 0 the second operand of [and]
    is still evaluated, here leaving [z] defined. *)
Theorem boolean_primitives_are_eager :
  (forall n op a b env st, op = "and" \/ op = "or" ->
     eval (S n) (List [Sym op; a; b]) env st =
       (let* proc := eval n (Sym op) env in
        let* va := eval n a env in
        let* vb := eval n b env in
        call (eval n) proc [va; vb]) st) /\
  (forall ev p a b st, p = OpAnd \/ p = OpOr ->
     call ev (VPrim p) [a; b] st = (binop p a b, st)) /\
  (forall ev a st,
     call ev (VPrim OpNot) [a] st =
       (Ok (VBool (match a with
                   | VNone => true
                   | VBool b => negb b
                   | VInt z => (z =? 0)%Z
                   | VFloat f => negb (float_truthy f)
                   | VStr s => String.eqb s EmptyString
                   | VHost h => negb (hobject_truthy h)
                   | VPrim _ | VProc _ _ _ _ => false
                   end)), st)) /\
  (forall x y, binop OpAnd (VInt x) (VInt y) = Ok (VInt (Z.land x y)) /\
               binop OpOr (VInt x) (VInt y) = Ok (VInt (Z.lor x y))) /\
  (forall p q, binop OpAnd (VBool p) (VBool q) = Ok (VBool (p && q)) /\
               binop OpOr (VBool p) (VBool q) = Ok (VBool (p || q))) /\
  (forall p z, binop OpAnd (VBool p) (VInt z) = Ok (VInt (Z.land (Z.b2z p) z)) /\
               binop OpAnd (VInt z) (VBool p) = Ok (VInt (Z.land z (Z.b2z p))) /\
               binop OpOr (VBool p) (VInt z) = Ok (VInt (Z.lor (Z.b2z p) z)) /\
               binop OpOr (VInt z) (VBool p) = Ok (VInt (Z.lor z (Z.b2z p)))) /\
  (truthy (VInt 2) = true /\ truthy (VInt 1) = true /\
   evaluates (List [Sym "and"; Int 2; Int 1]) global_env init_state (VInt 0) init_state /\
   evaluates (List [Sym "or"; Int 2; Int 1]) global_env init_state (VInt 3) init_state) /\
  vars standard_env !! "and" = Some (VPrim OpAnd) /\
  vars standard_env !! "or" = Some (VPrim OpOr) /\
  vars standard_env !! "not" = Some (VPrim OpNot) /\
  evaluates (List [Sym "and"; Int 1; Int 0]) global_env init_state (VInt 0) init_state /\
  evaluates (List [Sym "or"; Int 1; Int 0]) global_env init_state (VInt 1) init_state /\
  evaluates (List [Sym "not"; Int 1]) global_env init_state (VBool false) init_state /\
  (exists st' fr,
     evaluates
       (List [Sym "and"; Int 0;
              List [List [Sym "lambda"; List [Sym "d"]; Int 7];
                    List [Sym "define"; Sym "z"; Int 5]]])
       global_env init_state (VInt 0) st' /\
     heap st' !! global_env = Some fr /\ vars fr !! "z" = Some (VInt 5)).
Proof.
  assert (Hand : vars standard_env !! "and" = Some (VPrim OpAnd))
    by (apply standard_env_prim; unfold prim_table; repeat constructor).
  assert (Hor : vars standard_env !! "or" = Some (VPrim OpOr))
    by (apply standard_env_prim; unfold prim_table; repeat constructor).
  assert (Hnot : vars standard_env !! "not" = Some (VPrim OpNot))
    by (apply standard_env_prim; unfold prim_table; repeat constructor).
  split.
  { intros n op a b env st Hop. rewrite eval_S.
    replace (head_is (Sym op) "if") with false by (now destruct Hop as [-> | ->]).
    replace (head_is (Sym op) "define") with false by (now destruct Hop as [-> | ->]).
    replace (head_is (Sym op) "print") with false by (now destruct Hop as [-> | ->]).
    replace (head_is (Sym op) "lambda") with false by (now destruct Hop as [-> | ->]).
    cbn [orb mapM]. unfold bind, ret.
    destruct (eval n (Sym op) env st) as [[proc| | |] st1]; try reflexivity.
    destruct (eval n a env st1) as [[va| | |] st2]; try reflexivity.
    destruct (eval n b env st2) as [[vb| | |] st3]; reflexivity. }
  split; [now intros ev p a b st [-> | ->]|].
  split.
  { intros ev a st. destruct a as [|b|z| | | | |]; cbn [call apply_prim ret truthy];
      rewrite ?Bool.negb_involutive; reflexivity. }
  split; [now split|].
  split; [intros [|] [|]; now split|].
  split; [intros [|] z; repeat split|].
  split.
  { split; [reflexivity|]. split; [reflexivity|]. split.
    - apply (evaluates_app _ _ _ _ (VPrim OpAnd) init_state [VInt 2; VInt 1] init_state);
        [reflexivity| | |now apply calls_prim].
      + now apply (evaluates_sym_here _ _ _ standard_env).
      + repeat (apply (evaluates_all_cons _ _ _ _ _ init_state); [apply evaluates_int|]).
        apply evaluates_all_nil.
    - apply (evaluates_app _ _ _ _ (VPrim OpOr) init_state [VInt 2; VInt 1] init_state);
        [reflexivity| | |now apply calls_prim].
      + now apply (evaluates_sym_here _ _ _ standard_env).
      + repeat (apply (evaluates_all_cons _ _ _ _ _ init_state); [apply evaluates_int|]).
        apply evaluates_all_nil. }
  split; [exact Hand|]. split; [exact Hor|]. split; [exact Hnot|].
  split.
  { apply (evaluates_app _ _ _ _ (VPrim OpAnd) init_state [VInt 1; VInt 0] init_state);
      [reflexivity| | |now apply calls_prim].
    - now apply (evaluates_sym_here _ _ _ standard_env).
    - repeat (apply (evaluates_all_cons _ _ _ _ _ init_state); [apply evaluates_int|]).
      apply evaluates_all_nil. }
  split.
  { apply (evaluates_app _ _ _ _ (VPrim OpOr) init_state [VInt 1; VInt 0] init_state);
      [reflexivity| | |now apply calls_prim].
    - now apply (evaluates_sym_here _ _ _ standard_env).
    - repeat (apply (evaluates_all_cons _ _ _ _ _ init_state); [apply evaluates_int|]).
      apply evaluates_all_nil. }
  split.
  { apply (evaluates_app _ _ _ _ (VPrim OpNot) init_state [VInt 1] init_state);
      [reflexivity| | |now apply calls_prim].
    - now apply (evaluates_sym_here _ _ _ standard_env).
    - apply (evaluates_all_cons _ _ _ _ _ init_state); [apply evaluates_int|].
      apply evaluates_all_nil. }
  set (g := Frame (<["z" := VInt 5]> (vars standard_env)) None).
  set (fd := Frame (<["d" := VNone]> ∅) (Some global_env)).
  set (st1 := State [standard_env] [] 1).
  set (st2 := State [g] [] 1).
  set (st3 := State [g; fd] [] 1).
  exists st3, g. split; [|split; [reflexivity|apply lookup_insert_eq]].
  apply (evaluates_app _ _ _ _ (VPrim OpAnd) init_state [VInt 0; VInt 7] st3);
    [reflexivity| | |now apply calls_prim].
  - now apply (evaluates_sym_here _ _ _ standard_env).
  - apply (evaluates_all_cons _ _ _ _ _ init_state); [apply evaluates_int|].
    apply (evaluates_all_cons _ _ _ _ _ st3); [|apply evaluates_all_nil].
    apply (evaluates_app _ _ _ _ (VProc 0 (List [Sym "d"]) (Int 7) global_env)
             st1 [VNone] st2); [reflexivity| | |].
    + apply evaluates_lambda.
    + apply (evaluates_all_cons _ _ _ _ _ st2); [|apply evaluates_all_nil].
      exact (evaluates_define "z" (Int 5) global_env st1 (VInt 5) st1 standard_env
               (evaluates_int _ _ _) eq_refl).
    + apply (calls_procedure _ _ _ _ _ _ fd); [reflexivity|]. apply evaluates_int.
Qed.

Lemma evaluates_iff x env st v st' :
  evaluates x env st v st' <-> exists n, eval n x env st = (Ok v, st').
Proof.
  split.
  - intros [N HN]. exists N. now apply HN.
  - intros [N HN]. exists N. intros n Hn.
    now apply (eval_fuel_le N n x env Hn).
Qed.

(** X2.  Fuel only bounds the recursion: an evaluation that answers within
    a budget (a value, an exception, or a stuck store) gives the same answer
    and the same state with every larger budget. *)
Theorem eval_more_fuel :
  forall n m x env st r st',
    (n <= m)%nat -> eval n x env st = (r, st') -> r <> OutOfFuel ->
    eval m x env st = (r, st').
Proof. intros n m x env st r st' Hle. apply eval_fuel_le, Hle. Qed.

(** X3.  A closure resolves its free variables when it is called, in the
    frames it captured as they are then: a Procedure whose body is a Symbol
    that is none of its parameters returns the value the captured frame
    binds the Symbol to in the state of the call.  So after [(define y 1)],
    [(define g (lambda () y))] and [(define y 2)] in a new interpreter,
    [(g)] is 2. *)
Theorem closure_reads_live_binding :
  (forall id (ps : list string) s cenv vs st fr v,
     s ∉ ps -> heap st !! cenv = Some fr -> vars fr !! s = Some v ->
     exists st', calls (VProc id (List (Sym <$> ps)) (Sym s) cenv) vs st v st') /\
  (exists st1 st2 st3 st4,
     evaluates (List [Sym "define"; Sym "y"; Int 1]) global_env init_state VNone st1 /\
     evaluates (List [Sym "define"; Sym "g"; List [Sym "lambda"; List []; Sym "y"]])
       global_env st1 VNone st2 /\
     evaluates (List [Sym "define"; Sym "y"; Int 2]) global_env st2 VNone st3 /\
     evaluates (List [Sym "g"]) global_env st3 (VInt 2) st4).
Proof.
  assert (Hgen : forall id (ps : list string) s cenv vs st fr v,
     s ∉ ps -> heap st !! cenv = Some fr -> vars fr !! s = Some v ->
     exists st', calls (VProc id (List (Sym <$> ps)) (Sym s) cenv) vs st v st').
  { intros id ps s cenv vs st fr v Hs Hfr Hv.
    set (new := Frame (dict_update ∅ (zip ps vs)) (Some cenv)).
    set (st1 := State (heap st ++ [new]) (output st) (next_id st)).
    exists st1. apply (calls_procedure _ _ _ _ _ _ new); [apply Env_init_syms|].
    fold st1. apply (evaluates_sym_outer _ _ _ new cenv).
    - apply list_lookup_middle. reflexivity.
    - cbn [vars new]. rewrite dict_update_lookup_ne; [apply lookup_empty|].
      rewrite zip_fst_take. intros Hin. apply Hs. exact (subseteq_take _ _ _ Hin).
    - reflexivity.
    - apply (evaluates_sym_here _ _ _ fr); [|exact Hv].
      now apply lookup_app_l_Some. }
  split; [exact Hgen|].
  set (g := VProc 0 (List []) (Sym "y") global_env).
  set (f1 := Frame (<["y" := VInt 1]> (vars standard_env)) None).
  set (f2 := Frame (<["g" := g]> (vars f1)) None).
  set (f3 := Frame (<["y" := VInt 2]> (vars f2)) None).
  destruct (Hgen 0%nat [] "y" global_env [] (State [f3] [] 1) f3 (VInt 2))
    as (st4 & Hcall); [apply not_elem_of_nil|reflexivity|apply lookup_insert_eq|].
  exists (State [f1] [] 0), (State [f2] [] 1), (State [f3] [] 1), st4.
  split; [|split; [|split]].
  - exact (evaluates_define "y" (Int 1) global_env init_state (VInt 1) init_state
             standard_env (evaluates_int _ _ _) eq_refl).
  - exact (evaluates_define "g" (List [Sym "lambda"; List []; Sym "y"]) global_env
             (State [f1] [] 0) g (State [f1] [] 1) f1 (evaluates_lambda _ _ _ _) eq_refl).
  - exact (evaluates_define "y" (Int 2) global_env (State [f2] [] 1) (VInt 2)
             (State [f2] [] 1) f2 (evaluates_int _ _ _) eq_refl).
  - apply (evaluates_app _ _ _ _ g (State [f3] [] 1) [] (State [f3] [] 1));
      [reflexivity| |apply evaluates_all_nil|exact Hcall].
    apply (evaluates_sym_here _ _ _ f3); [reflexivity|].
    cbn [vars f3 f2]. rewrite lookup_insert_ne by discriminate. apply lookup_insert_eq.
Qed.

End EvalProperties.

(** * Further properties of the tokenizer *)

Lemma string_app_assoc (s t u : string) :
  (s ++ (t ++ u))%string = ((s ++ t) ++ u)%string.
Proof.
  induction s as [|a s IH]; [reflexivity|]. now rewrite !append_String, IH.
Qed.

Lemma replace_app c r s t :
  replace c r (s ++ t)%string = (replace c r s ++ replace c r t)%string.
Proof.
  induction s as [|a s IH]; [reflexivity|].
  change (replace c r (String a s ++ t)%string)
    with (if ascii_eqb a c then (r ++ replace c r (s ++ t))%string
          else String a (replace c r (s ++ t)%string)).
  change (replace c r (String a s))
    with (if ascii_eqb a c then (r ++ replace c r s)%string
          else String a (replace c r s)).
  rewrite IH. destruct (ascii_eqb a c); [|reflexivity].
  now rewrite string_app_assoc.
Qed.

Lemma pad_app s t : pad (s ++ t)%string = (pad s ++ pad t)%string.
Proof. unfold pad. now rewrite !replace_app. Qed.

Lemma space_not_paren c : is_space c = true -> is_paren c = false.
Proof.
  destruct c as [[] [] [] [] [] [] [] []]; intros Hc; try reflexivity;
    vm_compute in Hc; discriminate.
Qed.

Lemma starts_token_app s t :
  s <> EmptyString -> starts_token (s ++ t)%string = starts_token s.
Proof. now destruct s. Qed.

Lemma append_empty (r : string) : (EmptyString ++ r)%string = r.
Proof. reflexivity. Qed.

Lemma split_app_space s c t :
  is_space c = true -> split (s ++ String c t)%string = split s ++ split t.
Proof.
  intros Hc. induction s as [|a s IH].
  - rewrite append_empty. cbn [split]. now rewrite Hc.
  - rewrite append_String. cbn [split]. destruct (is_space a); [exact IH|].
    destruct s as [|d s].
    + rewrite append_empty in *. cbn [starts_token split] in *. now rewrite Hc.
    + rewrite starts_token_app by discriminate.
      destruct (starts_token (String d s)) eqn:Hd; [|now rewrite IH].
      cbn [starts_token] in Hd. apply negb_true_iff in Hd.
      destruct (split_first d s Hd) as (t0 & ts & Hsp).
      rewrite IH, Hsp. reflexivity.
Qed.

Lemma pad_atom t : atom_chars t = true -> pad t = t.
Proof.
  induction t as [|c t IH]; [reflexivity|]. cbn [atom_chars]. intros Hc.
  apply andb_true_iff in Hc as [Hc Ht]. apply andb_true_iff in Hc as [_ Hp].
  rewrite pad_cons, (IH Ht). apply negb_true_iff in Hp. unfold is_paren in Hp.
  apply orb_false_iff in Hp as [-> ->]. reflexivity.
Qed.

Lemma split_atom t : atom_chars t = true -> t <> EmptyString -> split t = [t].
Proof.
  induction t as [|c t IH]; [done|]. cbn [atom_chars]. intros Hc _.
  apply andb_true_iff in Hc as [Hc Ht]. apply andb_true_iff in Hc as [Hs _].
  apply negb_true_iff in Hs. cbn [split]. rewrite Hs.
  destruct t as [|d t]; [reflexivity|].
  rewrite (IH Ht) by discriminate.
  cbn [atom_chars] in Ht. apply andb_true_iff in Ht as [Ht _].
  apply andb_true_iff in Ht as [Hd _]. cbn [starts_token]. now rewrite Hd.
Qed.

Lemma tokenize_token t : token_ok t -> tokenize t = [t].
Proof.
  intros [->|[->|[Hne Hat]]]; [reflexivity|reflexivity|].
  unfold tokenize. fold (pad t). rewrite (pad_atom _ Hat). now apply split_atom.
Qed.

Lemma tokenize_app_space s c t :
  is_space c = true -> tokenize (s ++ String c t)%string = tokenize s ++ tokenize t.
Proof.
  intros Hc. unfold tokenize. fold (pad (s ++ String c t)) (pad s) (pad t).
  rewrite pad_app, pad_cons.
  pose proof (space_not_paren c Hc) as Hp. unfold is_paren in Hp.
  apply orb_false_iff in Hp as [-> ->]. now apply split_app_space.
Qed.

Lemma tokenize_app_paren s c t :
  is_paren c = true ->
  tokenize (s ++ String c t)%string = tokenize s ++ String c EmptyString :: tokenize t.
Proof.
  intros Hc. unfold tokenize. fold (pad (s ++ String c t)) (pad s) (pad t).
  rewrite pad_app, pad_cons.
  apply is_paren_cases in Hc as [-> | ->]; cbn [ascii_eqb];
    change (ascii_eqb "(" "(") with true; change (ascii_eqb ")" "(") with false;
    change (ascii_eqb ")" ")") with true; cbv iota;
    rewrite split_app_space by reflexivity; reflexivity.
Qed.

Lemma tokenize_unwords ts : Forall token_ok ts -> tokenize (unwords ts) = ts.
Proof.
  induction 1 as [|t ts Ht _ IH]; [reflexivity|]. cbn [unwords].
  rewrite tokenize_app_space by reflexivity. now rewrite (tokenize_token _ Ht), IH.
Qed.

(** X4.  The tokenizer composes: whitespace between two texts only
    separates their tokens, a parenthesis between them is a token of its
    own, and writing tokens out with spaces between them and tokenizing
    again gives the same tokens back (so tokenizing is idempotent through
    [unwords]). *)
Theorem tokenize_composes :
  (forall s c t, is_space c = true ->
     tokenize (s ++ String c t)%string = tokenize s ++ tokenize t) /\
  (forall s t, tokenize (s ++ String "(" t)%string = tokenize s ++ "(" :: tokenize t) /\
  (forall s t, tokenize (s ++ String ")" t)%string = tokenize s ++ ")" :: tokenize t) /\
  (forall ts, Forall token_ok ts -> tokenize (unwords ts) = ts) /\
  (forall s, tokenize (unwords (tokenize s)) = tokenize s).
Proof.
  split; [exact tokenize_app_space|].
  split; [intros s t; now apply tokenize_app_paren|].
  split; [intros s t; now apply tokenize_app_paren|].
  split; [exact tokenize_unwords|].
  intros s. apply tokenize_unwords, split_token_ok, pad_padded.
Qed.

(** * Further properties of the reader *)

Lemma ttree_nested_ind (P : ttree -> Prop) :
  (forall a, P (TAtom a)) ->
  (forall ts, Forall P ts -> P (TList ts)) ->
  forall t, P t.
Proof.
  intros Ha Hl. fix IH 1. intros [a|ts]; [apply Ha|]. apply Hl.
  induction ts as [|t ts IHts]; constructor; [apply IH|exact IHts].
Qed.

Lemma flatten_head t :
  tree_ok t = true ->
  exists t0 r, flatten t = t0 :: r /\ String.eqb t0 ")" = false.
Proof.
  destruct t as [a|ts]; cbn [tree_ok flatten].
  - intros Ha. apply andb_true_iff in Ha as [_ Ha]. apply negb_true_iff in Ha.
    now exists a, [].
  - intros _. now eexists _, _.
Qed.

Section MoreReaderProperties.
Context `{Host}.

(** The tokens of a tree read back to the expression of the tree. *)
Lemma read_tree t :
  tree_ok t = true ->
  forall rest, exists N, forall n, (N <= n)%nat ->
    read n (flatten t ++ rest) = Ok (tree_sexp t, rest).
Proof.
  induction t as [a|ts IH] using ttree_nested_ind.
  - cbn [tree_ok flatten tree_sexp]. intros Ha rest. exists 1%nat.
    intros [|n] Hn; [lia|].
    apply andb_true_iff in Ha as [Ho Hc].
    apply negb_true_iff in Ho. apply negb_true_iff in Hc.
    change ([a] ++ rest) with (a :: rest).
    now rewrite read_S, (String.eqb_sym "(" a), Ho, (String.eqb_sym ")" a), Hc.
  - cbn [tree_ok flatten tree_sexp]. intros Hok rest.
    assert (Hloop : forall L, exists N, forall n, (N <= n)%nat ->
              read_loop n (mjoin (flatten <$> ts) ++ ")" :: rest) L
              = Ok (List (L ++ (tree_sexp <$> ts)), rest)).
    { clear -IH Hok. induction IH as [|x ts Hx _ IHts]; intros L.
      - exists 1%nat. intros [|n] Hn; [lia|]. cbn [fmap list_fmap mjoin list_join].
        now rewrite app_nil_r.
      - cbn [forallb] in Hok. apply andb_true_iff in Hok as [Hxok Htsok].
        destruct (Hx Hxok (mjoin (flatten <$> ts) ++ ")" :: rest)) as [N1 H1].
        destruct (IHts Htsok (L ++ [tree_sexp x])) as [N2 H2].
        destruct (flatten_head x Hxok) as (t0 & r & Hfl & Ht0).
        exists (S (Nat.max N1 N2)). intros [|n] Hn; [lia|].
        cbn [fmap list_fmap mjoin list_join]. rewrite <- app_assoc.
        pose proof (H1 n ltac:(lia)) as Hr.
        set (rest' := mjoin (flatten <$> ts) ++ ")" :: rest) in *.
        assert (Hcons : flatten x ++ rest' = t0 :: (r ++ rest')) by now rewrite Hfl.
        rewrite Hcons, read_loop_S, Ht0. cbn [negb]. rewrite <- Hcons, Hr.
        rewrite (H2 n ltac:(lia)). now rewrite <- app_assoc. }
    destruct (Hloop []) as [N HN]. exists (S N). intros [|n] Hn; [lia|].
    rewrite <- app_comm_cons, read_S. cbn [String.eqb Ascii.eqb Bool.eqb].
    rewrite <- app_assoc. apply HN. lia.
Qed.

(** What the reader accepts is the tokens of a tree. *)
Lemma read_sound n :
  (forall tokens e rest, read n tokens = Ok (e, rest) ->
     exists t, tree_ok t = true /\ tokens = flatten t ++ rest /\ e = tree_sexp t) /\
  (forall tokens L e rest, read_loop n tokens L = Ok (e, rest) ->
     exists ts, forallb tree_ok ts = true /\
       tokens = mjoin (flatten <$> ts) ++ ")" :: rest /\
       e = List (L ++ (tree_sexp <$> ts))).
Proof.
  induction n as [|n [IHr IHl]]; [split; intros; discriminate|].
  split.
  - intros tokens e rest. rewrite read_S.
    destruct tokens as [|token tokens]; [discriminate|].
    destruct (String.eqb "(" token) eqn:Ho.
    + apply String.eqb_eq in Ho as <-. intros Hl.
      destruct (IHl _ _ _ _ Hl) as (ts & Hok & -> & ->).
      exists (TList ts). split; [exact Hok|]. split; [|reflexivity].
      cbn [flatten]. now rewrite <- app_comm_cons, <- app_assoc.
    + destruct (String.eqb ")" token) eqn:Hc; [discriminate|].
      intros [= <- <-]. exists (TAtom token). split; [|now split].
      cbn [tree_ok]. now rewrite (String.eqb_sym token "("), Ho,
                                 (String.eqb_sym token ")"), Hc.
  - intros tokens L e rest. rewrite read_loop_S.
    destruct tokens as [|token rest0]; [discriminate|].
    destruct (negb (String.eqb token ")")) eqn:Hne.
    + destruct (read n (token :: rest0)) as [[e1 t1]| | |] eqn:Hr; try discriminate.
      intros Hl.
      destruct (IHr _ _ _ Hr) as (x & Hx & Hp1 & ->).
      destruct (IHl _ _ _ _ Hl) as (ts & Hts & -> & ->).
      exists (x :: ts). split; [cbn [forallb]; now rewrite Hx, Hts|].
      split; [|now rewrite <- app_assoc].
      cbn [fmap list_fmap mjoin list_join]. now rewrite Hp1, <- app_assoc.
    + apply negb_false_iff, String.eqb_eq in Hne as ->.
      intros [= <- <-]. exists []. split; [reflexivity|]. split; [reflexivity|].
      now rewrite app_nil_r.
Qed.

Lemma reader_grammar_lemma :
  (forall t rest, tree_ok t = true ->
     read_from_tokens (flatten t ++ rest) = Ok (tree_sexp t, rest)) /\
  (forall tokens e rest, read_from_tokens tokens = Ok (e, rest) ->
     exists t, tree_ok t = true /\ tokens = flatten t ++ rest /\ e = tree_sexp t).
Proof.
  split.
  - intros t rest Hok. destruct (read_tree t Hok rest) as [N HN].
    rewrite <- (read_from_tokens_fuel N); [now apply HN|].
    now rewrite HN.
  - intros tokens e rest. apply read_sound.
Qed.

(** X5.  The reader accepts exactly the token sequences that begin with a
    well-parenthesised expression.  The tokens of any tree whose leaves are
    not parentheses, followed by any tokens, read to the expression of the
    tree and leave what follows; and whenever the reader returns an
    expression, the tokens it consumed are the tokens of such a tree and the
    expression is the one of that tree. *)
Theorem reader_grammar :
  (forall t rest, tree_ok t = true ->
     read_from_tokens (flatten t ++ rest) = Ok (tree_sexp t, rest)) /\
  (forall tokens e rest, read_from_tokens tokens = Ok (e, rest) ->
     exists t, tree_ok t = true /\ tokens = flatten t ++ rest /\ e = tree_sexp t).
Proof. exact reader_grammar_lemma. Qed.

End MoreReaderProperties.

Lemma tree_atoms_ok t : tree_atoms t = true -> tree_ok t = true.
Proof.
  induction t as [a|ts IH] using ttree_nested_ind; cbn [tree_atoms tree_ok].
  - intros Ha. apply andb_true_iff in Ha as [_ Ha].
    destruct (String.eqb a "(") eqn:Ho; [apply String.eqb_eq in Ho as ->; discriminate|].
    destruct (String.eqb a ")") eqn:Hc; [apply String.eqb_eq in Hc as ->; discriminate|].
    reflexivity.
  - induction IH as [|x ts Hx _ IHts]; [reflexivity|]. cbn [forallb].
    intros Hok. apply andb_true_iff in Hok as [Hxok Htsok].
    now rewrite (Hx Hxok), (IHts Htsok).
Qed.

Lemma tree_atoms_tokens t : tree_atoms t = true -> Forall token_ok (flatten t).
Proof.
  induction t as [a|ts IH] using ttree_nested_ind; cbn [tree_atoms flatten].
  - intros Ha. apply andb_true_iff in Ha as [Hne Ha]. apply negb_true_iff in Hne.
    constructor; [|constructor]. right. right. split; [|exact Ha].
    intros ->. discriminate.
  - intros Hok. constructor; [now left|]. apply Forall_app. split.
    + induction IH as [|x ts Hx _ IHts]; [constructor|]. cbn [forallb] in Hok.
      apply andb_true_iff in Hok as [Hxok Htsok].
      cbn [fmap list_fmap mjoin list_join]. apply Forall_app. split; auto.
    + constructor; [now right; left|constructor].
Qed.

Section ParseProperties.
Context `{Host}.

(** X6.  Writing out the tokens of a tree whose leaves are atom tokens,
    with spaces between them, and parsing the text gives the expression of
    the tree: [parse] undoes the rendering of an expression as text. *)
Theorem parse_rendered_tree :
  forall t, tree_atoms t = true ->
    tokenize (unwords (flatten t)) = flatten t /\
    parse (unwords (flatten t)) = Ok (tree_sexp t).
Proof.
  intros t Ht.
  assert (Htok : tokenize (unwords (flatten t)) = flatten t)
    by (apply tokenize_unwords, tree_atoms_tokens, Ht).
  split; [exact Htok|]. unfold parse. rewrite Htok.
  rewrite <- (app_nil_r (flatten t)).
  now rewrite (proj1 reader_grammar_lemma t [] (tree_atoms_ok t Ht)).
Qed.

Lemma atom_Sym t s : atom t = Sym s -> s = t /\ py_int t = None /\ py_float_literal t = None.
Proof.
  unfold atom. destruct (py_int t); [discriminate|].
  destruct (py_float_literal t); [discriminate|]. now intros [= <-].
Qed.

Lemma symbols_tree t s :
  tree_ok t = true -> s ∈ symbols (tree_sexp t) ->
  s ∈ flatten t /\ py_int s = None /\ py_float_literal s = None /\
  s <> "(" /\ s <> ")".
Proof.
  induction t as [a|ts IH] using ttree_nested_ind; cbn [tree_ok tree_sexp flatten].
  - intros Ha Hs. destruct (atom a) as [z|f|s'|l] eqn:Hat;
      cbn [symbols] in Hs; try (now apply elem_of_nil in Hs).
    + apply list_elem_of_singleton in Hs as ->.
      apply atom_Sym in Hat as (-> & Hi & Hf).
      apply andb_true_iff in Ha as [Ho Hc].
      apply negb_true_iff in Ho. apply negb_true_iff in Hc.
      split; [apply list_elem_of_singleton; reflexivity|].
      split; [exact Hi|]. split; [exact Hf|].
      split; intros ->; discriminate.
    + unfold atom in Hat. destruct (py_int a); [discriminate|].
      destruct (py_float_literal a); discriminate.
  - intros Hok Hs. cbn [symbols] in Hs.
    assert (Hin : s ∈ mjoin (flatten <$> ts) /\ py_int s = None /\
                  py_float_literal s = None /\ s <> "(" /\ s <> ")").
    { induction IH as [|x ts Hx _ IHts]; [now apply elem_of_nil in Hs|].
      cbn [forallb] in Hok. apply andb_true_iff in Hok as [Hxok Htsok].
      cbn [fmap list_fmap mjoin list_join] in Hs |- *.
      apply elem_of_app in Hs as [Hs|Hs].
      - destruct (Hx Hxok Hs) as (Hin & Hrest). split; [|exact Hrest].
        apply elem_of_app. now left.
      - destruct (IHts Htsok Hs) as (Hin & Hrest). split; [|exact Hrest].
        apply elem_of_app. now right. }
    destruct Hin as (Hin & Hrest). split; [|exact Hrest].
    apply elem_of_cons. right. apply elem_of_app. now left.
Qed.

(** X7.  Every Symbol of an expression the reader returns is one of the
    tokens it was given, is neither a parenthesis nor a token that [int] or
    [float] accepts, and, when the tokens come from [tokenize], is not empty
    and has no whitespace and no parenthesis in it.  So no text parses to
    the Symbols [inf] or [nan]: no parsed program refers to these two names
    of the [math] module. *)
Theorem parsed_symbols :
  (forall tokens e rest s, read_from_tokens tokens = Ok (e, rest) ->
     s ∈ symbols e ->
     s ∈ tokens /\ py_int s = None /\ py_float_literal s = None /\
     s <> "(" /\ s <> ")") /\
  (forall program e s, parse program = Ok e -> s ∈ symbols e ->
     s <> "" /\ atom_chars s = true /\ py_int s = None /\
     py_float_literal s = None) /\
  (forall program e, parse program = Ok e ->
     ("inf" ∉ symbols e) /\ ("nan" ∉ symbols e)).
Proof.
  assert (Hread : forall tokens e rest s, read_from_tokens tokens = Ok (e, rest) ->
     s ∈ symbols e ->
     s ∈ tokens /\ py_int s = None /\ py_float_literal s = None /\
     s <> "(" /\ s <> ")").
  { intros tokens e rest s Hr Hs.
    destruct (proj1 (read_sound _) _ _ _ Hr) as (t & Hok & -> & ->).
    destruct (symbols_tree t s Hok Hs) as (Hin & Hrest). split; [|exact Hrest].
    apply elem_of_app. now left. }
  assert (Hparse : forall program e s, parse program = Ok e -> s ∈ symbols e ->
     s <> "" /\ atom_chars s = true /\ py_int s = None /\
     py_float_literal s = None).
  { intros program e s Hp Hs. unfold parse in Hp.
    destruct (read_from_tokens (tokenize program)) as [[e0 r]| | |] eqn:Hr;
      try discriminate. injection Hp as ->.
    destruct (Hread _ _ _ s Hr Hs) as (Hin & Hi & Hf & Ho & Hc).
    pose proof (split_token_ok _ (pad_padded program)) as Hall.
    fold (tokenize program) in Hall. rewrite Forall_forall in Hall.
    destruct (Hall s Hin) as [->|[->|[Hne Hat]]]; done. }
  split; [exact Hread|]. split; [exact Hparse|].
  intros program e Hp. split; intros Hs;
    destruct (Hparse _ _ _ Hp Hs) as (_ & _ & _ & Hf); discriminate.
Qed.

End ParseProperties.

(** * Further properties of the evaluator *)

Section MoreEvalProperties.
Context `{Host}.

(** ** What evaluation keeps *)

Lemma grows_refl st : grows st st.
Proof. repeat split; done. Qed.

Lemma grows_trans st1 st2 st3 : grows st1 st2 -> grows st2 st3 -> grows st1 st3.
Proof.
  intros (Hl1 & Ho1 & Hn1) (Hl2 & Ho2 & Hn2).
  split; [lia|]. split; [now transitivity (output st2)|lia].
Qed.

Lemma bind_grows {A B} (m : M A) (k : A -> M B) st :
  grows st (m st).2 -> (forall a st1, grows st1 (k a st1).2) ->
  grows st (bind m k st).2.
Proof.
  intros Hm Hk. unfold bind. destruct (m st) as [[a|e| |] st1]; cbn [snd] in *;
    try exact Hm.
  exact (grows_trans _ _ _ Hm (Hk a st1)).
Qed.

Lemma mapM_grows {A B} (f : A -> M B) l :
  (forall a st, grows st (f a st).2) -> forall st, grows st (mapM f l st).2.
Proof.
  intros Hf. induction l as [|a l IH]; intros st; [apply grows_refl|].
  cbn [mapM]. apply bind_grows; [apply Hf|]. intros b st1.
  apply bind_grows; [apply IH|]. intros bs st2. apply grows_refl.
Qed.

Lemma setitem_grows env var v st : grows st (setitem env var v st).2.
Proof.
  unfold setitem. destruct var; try apply grows_refl.
  destruct (heap st !! env); [|apply grows_refl].
  split; [cbn; now rewrite length_insert|]. now split.
Qed.

Lemma apply_prim_grows p args st : grows st (apply_prim p args st).2.
Proof.
  unfold apply_prim, ret, raise, lift.
  destruct p; destruct args as [|a [|b [|c args]]]; cbn [snd];
    try apply grows_refl;
    (split; [done|]; split; [now apply prefix_app_r|done]).
Qed.

Lemma call_grows (ev : sexp -> loc -> M value) proc args :
  (forall x env st, grows st (ev x env st).2) ->
  forall st, grows st (call ev proc args st).2.
Proof.
  intros Hev st. destruct proc; cbn [call]; try apply grows_refl.
  - apply apply_prim_grows.
  - apply bind_grows; [apply grows_refl|]. intros fr st1.
    apply bind_grows; [|intros l st2; apply Hev].
    split; [cbn; rewrite length_app; lia|]. now split.
Qed.

Lemma eval_grows n : forall x env st, grows st (eval n x env st).2.
Proof.
  induction n as [|n IH]; intros x env st; [apply grows_refl|].
  rewrite eval_S. destruct x as [z|f|s|[|x0 rest]]; try apply grows_refl.
  - unfold lookup_var. destruct (Env_find n (heap st) env s) as [l| | |];
      try apply grows_refl.
    destruct (heap st !! l) as [fr|]; [destruct (vars fr !! s)|]; apply grows_refl.
  - destruct (head_is x0 "if").
    { destruct rest as [|test [|conseq [|alt [|? ?]]]]; try apply grows_refl.
      apply bind_grows; [apply IH|]. intros t st1. apply IH. }
    destruct (head_is x0 "define" || head_is x0 "print").
    { destruct rest as [|var [|exp [|? ?]]]; try apply grows_refl.
      apply bind_grows; [apply IH|]. intros v st1. apply setitem_grows. }
    destruct (head_is x0 "lambda").
    { destruct rest as [|parms [|body [|? ?]]]; try apply grows_refl.
      split; [done|]. split; [done|cbn; lia]. }
    apply bind_grows; [apply IH|]. intros proc st1.
    apply bind_grows; [apply mapM_grows; intros a st2; apply IH|]. intros args st2.
    apply call_grows. exact IH.
Qed.

Lemma lookup_prefix {A} (h h' : list A) :
  (forall l a, h !! l = Some a -> h' !! l = Some a) -> h `prefix_of` h'.
Proof.
  intros Hl. exists (drop (length h) h').
  rewrite <- (take_drop (length h) h') at 1. f_equal.
  apply list_eq. intros i. destruct (h !! i) as [a|] eqn:Hi.
  - rewrite lookup_take_lt by (now apply lookup_lt_Some in Hi). now apply Hl.
  - apply lookup_ge_None in Hi. now rewrite lookup_take_ge.
Qed.

(** X8.  Evaluation only adds to the state.  Evaluating any expression in
    an environment leaves every other existing frame, and every [outer]
    link, as it was; the store and the output only grow and the Procedure
    count never decreases.  A call, whatever is called, leaves every frame
    that existed before it unchanged: the store after the call extends the
    store before it, so a [define] in a procedure body never changes a
    binding of the caller or of the global frame. *)
Theorem evaluation_only_adds :
  (forall n x env st,
     frames_kept env st (eval n x env st).2 /\ grows st (eval n x env st).2) /\
  (forall n proc args st,
     heap st `prefix_of` heap (call (eval n) proc args st).2).
Proof.
  split.
  - intros n x env st. split; [|apply eval_grows].
    apply (eval_frames_kept n x env st (eval n x env st).1). apply surjective_pairing.
  - intros n proc args st. apply lookup_prefix.
    apply (call_old_frames (eval n) proc args st (call (eval n) proc args st).1);
      [apply eval_frames_kept|apply surjective_pairing].
Qed.

(** ** Env.find as a relation *)

Lemma Env_find_finds n h self var l :
  Env_find n h self var = Ok l -> finds h var self l.
Proof.
  revert self. induction n as [|n IH]; intros self; [discriminate|].
  cbn [Env_find]. destruct (h !! self) as [fr|] eqn:Hfr; [|discriminate].
  destruct (vars fr !! var) as [v|] eqn:Hv.
  - intros [= <-]. now apply (finds_here _ _ _ fr); [|rewrite Hv].
  - destruct (outer fr) as [o|] eqn:Ho; [|discriminate].
    intros Hf. exact (finds_outer _ _ _ fr o l Hfr Hv Ho (IH _ Hf)).
Qed.

Lemma finds_Env_find h var self l :
  finds h var self l -> exists N, forall n, (N <= n)%nat -> Env_find n h self var = Ok l.
Proof.
  induction 1 as [l fr Hfr [v Hv]|l fr o l' Hfr Hv Ho _ [N HN]].
  - exists 1%nat. intros [|n] Hn; [lia|]. cbn [Env_find]. now rewrite Hfr, Hv.
  - exists (S N). intros [|n] Hn; [lia|]. cbn [Env_find]. rewrite Hfr, Hv, Ho.
    apply HN. lia.
Qed.

Lemma finds_binds h var self l :
  finds h var self l -> exists fr v, h !! l = Some fr /\ vars fr !! var = Some v.
Proof.
  induction 1 as [l fr Hfr [v Hv]|l fr o l' Hfr Hv Ho _ IH]; [|exact IH].
  now exists fr, v.
Qed.

(** X9.  [Env.find] returns the first frame, walking outward through the
    [outer] links, that binds the variable: it answers with a frame exactly
    when such a frame exists, and then every larger budget gives the same
    frame.  The frame it returns binds the variable, so the subscript in
    [env.find(x)[x]] never fails; and a frame that binds the variable
    itself is returned at once, whatever its outer frames hold. *)
Theorem Env_find_first_binding :
  (forall h self var l,
     (exists n, Env_find n h self var = Ok l) <-> finds h var self l) /\
  (forall h self var l, finds h var self l ->
     exists N, forall n, (N <= n)%nat -> Env_find n h self var = Ok l) /\
  (forall n st env x l, Env_find n (heap st) env x = Ok l ->
     exists fr v, heap st !! l = Some fr /\ vars fr !! x = Some v /\
       lookup_var n env x st = (Ok v, st)) /\
  (forall n h self var fr, h !! self = Some fr -> is_Some (vars fr !! var) ->
     Env_find (S n) h self var = Ok self).
Proof.
  split; [|split; [|split]].
  - intros h self var l. split.
    + intros [n Hn]. exact (Env_find_finds _ _ _ _ _ Hn).
    + intros Hf. destruct (finds_Env_find _ _ _ _ Hf) as [N HN].
      exists N. now apply HN.
  - intros h self var l. apply finds_Env_find.
  - intros n st env x l Hf.
    destruct (finds_binds _ _ _ _ (Env_find_finds _ _ _ _ _ Hf)) as (fr & v & Hfr & Hv).
    exists fr, v. split; [exact Hfr|]. split; [exact Hv|].
    unfold lookup_var. now rewrite Hf, Hfr, Hv.
  - intros n h self var fr Hfr [v Hv]. cbn [Env_find]. now rewrite Hfr, Hv.
Qed.

(** ** define, then look up *)

Lemma Env_find_setitem_ne m h env fr s v l s' :
  h !! env = Some fr -> s' <> s ->
  Env_find m (<[env := Frame (<[s := v]> (vars fr)) (outer fr)]> h) l s'
    = Env_find m h l s'.
Proof.
  intros Hfr Hne. revert l. induction m as [|m IH]; intros l; [reflexivity|].
  cbn [Env_find]. unfold loc in *. destruct (decide (l = env)) as [->|Hl].
  - rewrite list_lookup_insert_eq by (now apply lookup_lt_Some in Hfr).
    rewrite Hfr. cbn [vars outer]. rewrite lookup_insert_ne by done.
    destruct (vars fr !! s'); [reflexivity|].
    destruct (outer fr); [apply IH|reflexivity].
  - rewrite list_lookup_insert_ne by done.
    destruct (h !! l) as [fr0|]; [|reflexivity].
    destruct (vars fr0 !! s'); [reflexivity|].
    destruct (outer fr0); [apply IH|reflexivity].
Qed.

Lemma lookup_var_setitem_ne m env fr s v l s' h out nid :
  h !! env = Some fr -> s' <> s ->
  (lookup_var m l s'
     (State (<[env := Frame (<[s := v]> (vars fr)) (outer fr)]> h) out nid)).1
  = (lookup_var m l s' (State h out nid)).1.
Proof.
  intros Hfr Hne. unfold lookup_var. cbn [heap].
  rewrite (Env_find_setitem_ne _ _ _ _ _ _ _ _ Hfr Hne).
  destruct (Env_find m h l s') as [l0| | |]; try reflexivity.
  unfold loc in *. destruct (decide (l0 = env)) as [->|Hl].
  - rewrite list_lookup_insert_eq by (now apply lookup_lt_Some in Hfr).
    rewrite Hfr. cbn [vars]. rewrite lookup_insert_ne by done.
    now destruct (vars fr !! s').
  - rewrite list_lookup_insert_ne by done.
    destruct (h !! l0) as [fr0|]; [|reflexivity]. now destruct (vars fr0 !! s').
Qed.

(** X10.  A definition is read back: after [(define s e)] has evaluated
    [e] to a value in an environment, the Symbol [s] evaluates to that value
    in the same environment, whatever an outer frame binds [s] to; and every
    other Symbol evaluates, from every environment, to what it evaluated to
    before the binding was written. *)
Theorem define_then_lookup :
  forall n s e env st v st1,
    eval n e env st = (Ok v, st1) -> is_Some (heap st1 !! env) ->
    exists st2,
      eval (S n) (List [Sym "define"; Sym s; e]) env st = (Ok VNone, st2) /\
      (forall m, (2 <= m)%nat -> eval m (Sym s) env st2 = (Ok v, st2)) /\
      (forall m l s', s' <> s ->
         (eval m (Sym s') l st2).1 = (eval m (Sym s') l st1).1).
Proof.
  intros n s e env st v st1 He [fr Hfr].
  exists (State (<[env := Frame (<[s := v]> (vars fr)) (outer fr)]> (heap st1))
                (output st1) (next_id st1)).
  split; [|split].
  - rewrite eval_S. cbn [head_is String.eqb Ascii.eqb Bool.eqb orb].
    rewrite (bind_Ok _ _ _ _ _ He). unfold setitem. now rewrite Hfr.
  - intros [|[|m]] Hm; [lia..|]. rewrite eval_S. unfold lookup_var.
    cbn [Env_find heap]. unfold loc in *.
    assert (Hlt : (env < length (heap st1))%nat) by (now apply lookup_lt_Some in Hfr).
    rewrite (list_lookup_insert_eq _ _ _ Hlt). cbn [vars]. rewrite lookup_insert_eq.
    rewrite (list_lookup_insert_eq _ _ _ Hlt). cbn [vars]. now rewrite lookup_insert_eq.
  - intros [|m] l s' Hne; [reflexivity|]. rewrite !eval_S.
    destruct st1 as [h out nid]. cbn [heap output next_id] in *.
    now apply lookup_var_setitem_ne.
Qed.

(** ** Malformed forms *)

(** X11.  What the evaluator does with a list it cannot take apart.  The
    empty list raises IndexError.  A list headed by [if] with other than
    three further elements, by [define] or [print] with other than two, or
    by [lambda] with other than two, raises ValueError before anything is
    evaluated, the state unchanged; so [(print 5)] raises ValueError and
    prints nothing.  A [define] or [print] whose target is a list evaluates
    its expression and then raises TypeError, writing no binding. *)
Theorem malformed_forms_raise :
  forall n env st,
    eval (S n) (List []) env st
      = (Raise (IndexError "list index out of range"), st) /\
    (forall rest, length rest <> 3%nat ->
       eval (S n) (List (Sym "if" :: rest)) env st = (Raise ValueError, st)) /\
    (forall head rest, head = "define" \/ head = "print" -> length rest <> 2%nat ->
       eval (S n) (List (Sym head :: rest)) env st = (Raise ValueError, st)) /\
    (forall rest, length rest <> 2%nat ->
       eval (S n) (List (Sym "lambda" :: rest)) env st = (Raise ValueError, st)) /\
    (forall head l e v st1, head = "define" \/ head = "print" ->
       eval n e env st = (Ok v, st1) ->
       eval (S n) (List [Sym head; List l; e]) env st = (Raise TypeError, st1)).
Proof.
  intros n env st. split; [reflexivity|]. split; [|split; [|split]].
  - intros rest Hlen. rewrite eval_S. cbn [head_is String.eqb Ascii.eqb Bool.eqb].
    destruct rest as [|a [|b [|c [|d rest]]]]; try reflexivity. now cbn in Hlen.
  - intros head rest [-> | ->] Hlen; rewrite eval_S;
      cbn [head_is String.eqb Ascii.eqb Bool.eqb orb];
      destruct rest as [|a [|b [|c rest]]]; try reflexivity; now cbn in Hlen.
  - intros rest Hlen. rewrite eval_S.
    cbn [head_is String.eqb Ascii.eqb Bool.eqb orb].
    destruct rest as [|a [|b [|c rest]]]; try reflexivity. now cbn in Hlen.
  - intros head l e v st1 [-> | ->] He; rewrite eval_S;
      cbn [head_is String.eqb Ascii.eqb Bool.eqb orb];
      now rewrite (bind_Ok _ _ _ _ _ He).
Qed.

(** ** Parameters and the global frame *)

(** X12.  A parameter shadows the captured environment: a Procedure with
    distinct parameter Symbols whose body is one of its parameters returns,
    when called, the argument in that position, whatever the frames it
    captured bind that name to. *)
Theorem parameter_shadows :
  forall id (ps : list string) cenv (vs : list value) st i x v,
    NoDup ps -> ps !! i = Some x -> vs !! i = Some v ->
    calls (VProc id (List (Sym <$> ps)) (Sym x) cenv) vs st v
      (State (heap st ++ [Frame (dict_update ∅ (zip ps vs)) (Some cenv)])
             (output st) (next_id st)).
Proof.
  intros id ps cenv vs st i x v Hnd Hx Hv.
  apply (calls_procedure _ _ _ _ _ _ (Frame (dict_update ∅ (zip ps vs)) (Some cenv)));
    [apply Env_init_syms|].
  apply (evaluates_sym_here _ _ _ (Frame (dict_update ∅ (zip ps vs)) (Some cenv))).
  - apply list_lookup_middle. reflexivity.
  - cbn [vars]. now apply (dict_update_positional _ _ _ i).
Qed.

Lemma dict_update_app d kvs kvs' :
  dict_update d (kvs ++ kvs') = dict_update (dict_update d kvs) kvs'.
Proof. unfold dict_update. apply fold_left_app. Qed.

(** X13.  The global frame of a new interpreter binds each of the thirteen
    names of the primitive table to its primitive, whatever the [math]
    module holds under the same name; every other name is bound as the
    [math] module binds it, the last entry of a repeated name winning; the
    frame has no outer frame; and it is the only frame of the initial store,
    at the location of the global environment. *)
Theorem standard_env_bindings :
  (forall name v, (name, v) ∈ prim_table -> vars standard_env !! name = Some v) /\
  (forall name, name ∉ prim_table.*1 ->
     vars standard_env !! name = dict_update ∅ math_vars !! name) /\
  (forall name v more, name ∉ more.*1 ->
     dict_update ∅ (math_vars ++ (name, v) :: more) !! name = Some v) /\
  outer standard_env = None /\
  heap init_state = [standard_env] /\
  heap init_state !! global_env = Some standard_env.
Proof.
  split; [exact standard_env_prim|]. split; [|split; [|now repeat split]].
  - intros name Hname. unfold standard_env. cbn [vars].
    now apply dict_update_lookup_ne.
  - intros name v more Hname. rewrite dict_update_app.
    unfold dict_update at 1. cbn [fold_left fst snd].
    fold (dict_update (<[name := v]> (dict_update ∅ math_vars)) more).
    rewrite dict_update_lookup_ne by exact Hname. apply lookup_insert_eq.
Qed.

End MoreEvalProperties.

(** * The store invariant *)

Section StoreInvariant.
Context `{Host}.

Lemma value_ok_mono k k' v : (k <= k')%nat -> value_ok k v -> value_ok k' v.
Proof. destruct v; cbn; try done. lia. Qed.

Lemma data_value_ok k v : is_procedure v = false -> value_ok k v.
Proof. now destruct v. Qed.

Lemma store_ok_setitem h env fr s v :
  store_ok h -> h !! env = Some fr -> value_ok (length h) v ->
  store_ok (<[env := Frame (<[s := v]> (vars fr)) (outer fr)]> h).
Proof.
  intros Hok Hfr Hv l fr' Hl. rewrite length_insert.
  destruct (decide (l = env)) as [->|Hne].
  - rewrite list_lookup_insert_eq in Hl by (now apply lookup_lt_Some in Hfr).
    injection Hl as <-. destruct (Hok _ _ Hfr) as [Ho Hvars]. split; [exact Ho|].
    cbn [vars]. now apply map_Forall_insert_2.
  - rewrite list_lookup_insert_ne in Hl by done. now apply Hok.
Qed.

Lemma store_ok_alloc h fr :
  store_ok h -> (forall o, outer fr = Some o -> (o < length h)%nat) ->
  map_Forall (fun _ v => value_ok (length h) v) (vars fr) ->
  store_ok (h ++ [fr]).
Proof.
  intros Hok Ho Hvars l fr' Hl. rewrite length_app. cbn [length].
  apply lookup_app_Some in Hl as [Hl|[Hge Hl]].
  - destruct (Hok _ _ Hl) as [Ho' Hv']. split; [exact Ho'|].
    eapply map_Forall_impl; [exact Hv'|]. intros ? v. apply value_ok_mono. lia.
  - apply list_lookup_singleton_Some in Hl as [Hl <-].
    assert (l = length h) as -> by lia. split; [exact Ho|].
    eapply map_Forall_impl; [exact Hvars|]. intros ? v. apply value_ok_mono. lia.
Qed.

Lemma update_pairs_ok (P : value -> Prop) kvs :
  Forall (fun kv => P kv.2) kvs ->
  forall d, map_Forall (fun _ v => P v) d ->
    match update_pairs d kvs with
    | Ok d' => map_Forall (fun _ v => P v) d'
    | Raise _ => True
    | OutOfFuel | Stuck => False
    end.
Proof.
  induction 1 as [|[k v] kvs Hv _ IH]; intros d Hd; [exact Hd|].
  cbn [update_pairs]. destruct k as [z|f|s|l]; try (now apply IH); [|exact I].
  apply IH. now apply map_Forall_insert_2.
Qed.

Lemma zip_Forall_snd {A} (P : value -> Prop) (ps : list A) vs :
  Forall P vs -> Forall (fun kv => P kv.2) (zip ps vs).
Proof.
  intros Hvs. revert ps. induction Hvs as [|v vs Hv _ IH]; intros [|p ps];
    try constructor; [exact Hv|apply IH].
Qed.

Lemma Env_init_ok k parms args o :
  Forall (value_ok k) args ->
  match Env_init parms args o with
  | Ok fr => outer fr = o /\ map_Forall (fun _ v => value_ok k v) (vars fr)
  | Raise _ => True
  | OutOfFuel | Stuck => False
  end.
Proof.
  intros Hargs. unfold Env_init.
  destruct parms as [z|f|s|ps]; cbn [iter_parms]; try exact I.
  - pose proof (update_pairs_ok (value_ok k) _
                  (zip_Forall_snd _ (map (fun c => Sym (String c EmptyString))
                     (list_ascii_of_string s)) _ Hargs) ∅ (map_Forall_empty _)) as Hu.
    destruct (update_pairs _ _); try done.
  - pose proof (update_pairs_ok (value_ok k) _ (zip_Forall_snd _ ps _ Hargs) ∅
                  (map_Forall_empty _)) as Hu.
    destruct (update_pairs _ _); try done.
Qed.

Lemma Env_find_ok n h l s :
  store_ok h -> (l < length h)%nat ->
  match Env_find n h l s with
  | Ok l' => (l' < length h)%nat
  | Stuck => False
  | _ => True
  end.
Proof.
  intros Hok. revert l. induction n as [|n IH]; intros l Hl; [exact I|].
  cbn [Env_find]. unfold loc in *.
  destruct (lookup_lt_is_Some_2 h l Hl) as [fr Hfr]. rewrite Hfr.
  destruct (vars fr !! s); [exact Hl|].
  destruct (outer fr) as [o|] eqn:Ho; [|exact I].
  apply IH. destruct (Hok _ _ Hfr) as [Hout _]. specialize (Hout o Ho). lia.
Qed.

Lemma sound_answer_same {A} (P : nat -> A -> Prop) st (r : result A) :
  store_ok (heap st) -> r <> Stuck ->
  (forall a, r = Ok a -> P (length (heap st)) a) ->
  sound_answer P st (r, st).
Proof. intros Hok Hr Ha. now split; [|split; [|split]]. Qed.

Ltac sound_same :=
  apply sound_answer_same;
  [assumption | discriminate | first [done | intros ? [= <-]; exact I]].

Lemma bind_sound {A B} (PA : nat -> A -> Prop) (PB : nat -> B -> Prop)
    (m : M A) (k : A -> M B) st :
  sound_answer PA st (m st) ->
  (forall a st1, m st = (Ok a, st1) -> sound_answer PB st1 (k a st1)) ->
  sound_answer PB st (bind m k st).
Proof.
  intros (Hok & Hlen & Hst & Ha) Hk. unfold bind.
  destruct (m st) as [[a|e| |] st1]; cbn [fst snd] in *.
  - destruct (Hk a st1 eq_refl) as (Hok' & Hlen' & Hst' & Hb).
    split; [exact Hok'|]. split; [lia|]. now split.
  - now split; [|split; [|split]].
  - now split; [|split; [|split]].
  - done.
Qed.

Lemma lookup_var_sound n env s st :
  store_ok (heap st) -> (env < length (heap st))%nat ->
  sound_outcome st (lookup_var n env s st).
Proof.
  intros Hok Henv. unfold lookup_var.
  pose proof (Env_find_ok n (heap st) env s Hok Henv) as Hf.
  destruct (Env_find n (heap st) env s) as [l|e| |] eqn:Ef;
    try sound_same; try done.
  destruct (finds_binds _ _ _ _ (Env_find_finds _ _ _ _ _ Ef)) as (fr & v & Hfr & Hv).
  rewrite Hfr, Hv. apply sound_answer_same; [exact Hok|done|].
  intros a [= <-]. destruct (Hok _ _ Hfr) as [_ Hvars]. exact (Hvars _ _ Hv).
Qed.

Lemma other_op_data p a b : data_answer (other_op p a b).
Proof.
  unfold other_op, str_cmp, data_answer; repeat case_match; simplify_eq; done.
Qed.

Lemma binop_data p a b :
  (forall p a b, data_answer (host_op p a b)) -> data_answer (binop p a b).
Proof.
  intros Hhost. unfold binop.
  destruct (as_int a) as [x|]; [destruct (as_int b) as [y|]|].
  - unfold int_op. destruct p; try exact I; try reflexivity.
    + destruct (y =? 0)%Z; [exact I|apply Hhost].
    + now destruct (is_bool a && is_bool b).
    + now destruct (is_bool a && is_bool b).
  - destruct (is_host_operand a || is_host_operand b);
      [apply Hhost|apply other_op_data].
  - destruct (is_host_operand a || is_host_operand b);
      [apply Hhost|apply other_op_data].
Qed.

Lemma data_answer_sound st (r : result value) :
  store_ok (heap st) -> data_answer r -> sound_outcome st (r, st).
Proof.
  intros Hok Hr. apply sound_answer_same; [exact Hok| |].
  - intros ->. exact Hr.
  - intros a ->. now apply data_value_ok.
Qed.

Lemma apply_prim_sound p args st :
  (forall p a b, data_answer (host_op p a b)) ->
  store_ok (heap st) -> sound_outcome st (apply_prim p args st).
Proof.
  intros Hhost Hok.
  assert (sound_outcome st
            (match args with [a; b] => lift (binop p a b) | _ => raise TypeError end st))
    as Hbin.
  { destruct args as [|a [|b [|c args]]];
      try sound_same.
    apply data_answer_sound; [exact Hok|now apply binop_data]. }
  destruct p; try exact Hbin; cbn [apply_prim].
  - split; [|split; [|split]]; cbn [fst snd heap]; try done.
    now intros a [= <-].
  - destruct args as [|a [|b args]]; sound_same.
Qed.

Lemma call_sound (ev : sexp -> loc -> M value) proc args st :
  host_returns_data ->
  (forall x env st, store_ok (heap st) -> (env < length (heap st))%nat ->
     sound_outcome st (ev x env st)) ->
  store_ok (heap st) -> value_ok (length (heap st)) proc ->
  Forall (value_ok (length (heap st))) args ->
  sound_outcome st (call ev proc args st).
Proof.
  intros (Hop & Hcall & _) Hev Hok Hproc Hargs.
  destruct proc as [| | | | |p|h|id parms body cenv]; cbn [call];
    try sound_same.
  - now apply apply_prim_sound.
  - apply data_answer_sound; [exact Hok|apply Hcall].
  - cbn [value_ok] in Hproc. unfold bind, lift, alloc.
    pose proof (Env_init_ok (length (heap st)) parms args (Some cenv) Hargs) as Hi.
    destruct (Env_init parms args (Some cenv)) as [fr|e| |];
      try sound_same; try done.
    destruct Hi as [Ho Hvars].
    destruct (Hev body (length (heap st))
                (State (heap st ++ [fr]) (output st) (next_id st)))
      as (Hok' & Hlen' & Hst' & Hv').
    + cbn [heap]. apply store_ok_alloc; [exact Hok| |exact Hvars].
      intros o Hoo. rewrite Ho in Hoo. injection Hoo as <-. exact Hproc.
    + cbn [heap]. rewrite length_app. cbn [length]. lia.
    + split; [exact Hok'|]. split; [|now split].
      cbn [heap] in Hlen'. rewrite length_app in Hlen'. cbn [length] in Hlen'. lia.
Qed.

Lemma mapM_sound (f : sexp -> M value) env l :
  (forall x st, store_ok (heap st) -> (env < length (heap st))%nat ->
     sound_outcome st (f x st)) ->
  forall st, store_ok (heap st) -> (env < length (heap st))%nat ->
    sound_answer (fun k => Forall (value_ok k)) st (mapM f l st).
Proof.
  intros Hf. induction l as [|x l IH]; intros st Hok Henv.
  - apply sound_answer_same; [exact Hok|done|]. intros a [= <-]. constructor.
  - cbn [mapM]. apply (bind_sound value_ok); [now apply Hf|].
    intros b st1 Hb. destruct (Hf x st Hok Henv) as (Hok1 & Hlen1 & _ & Hv1).
    rewrite Hb in Hok1, Hlen1, Hv1. cbn [fst snd] in *.
    apply (bind_sound (fun k => Forall (value_ok k))); [apply IH; [exact Hok1|lia]|].
    intros bs st2 Hbs. destruct (IH st1 Hok1 ltac:(lia)) as (Hok2 & Hlen2 & _ & Hv2).
    rewrite Hbs in Hok2, Hlen2, Hv2. cbn [fst snd] in *.
    apply sound_answer_same; [exact Hok2|done|]. intros a [= <-].
    constructor; [|now apply Hv2].
    apply (value_ok_mono (length (heap st1))); [exact Hlen2|now apply Hv1].
Qed.

Lemma eval_sound n :
  host_returns_data ->
  forall x env st, store_ok (heap st) -> (env < length (heap st))%nat ->
    sound_outcome st (eval n x env st).
Proof.
  intros Hhost. induction n as [|n IH]; intros x env st Hok Henv.
  - now apply sound_answer_same.
  - rewrite eval_S. destruct x as [z|f|s|[|x0 rest]];
      try sound_same.
    + now apply lookup_var_sound.
    + destruct (head_is x0 "if").
      { destruct rest as [|test [|conseq [|alt [|? ?]]]];
          try sound_same.
        apply (bind_sound value_ok); [now apply IH|]. intros t st1 Ht.
        destruct (IH test env st Hok Henv) as (Hok1 & Hlen1 & _).
        rewrite Ht in Hok1, Hlen1. cbn [snd] in *. apply IH; [exact Hok1|lia]. }
      destruct (head_is x0 "define" || head_is x0 "print").
      { destruct rest as [|var [|exp [|? ?]]]; try sound_same.
        apply (bind_sound value_ok); [now apply IH|]. intros v st1 Hv.
        destruct (IH exp env st Hok Henv) as (Hok1 & Hlen1 & _ & Hv1).
        rewrite Hv in Hok1, Hlen1, Hv1. cbn [fst snd] in *.
        unfold setitem. destruct var as [z|f|s|l];
          try sound_same.
        unfold loc in *.
        destruct (lookup_lt_is_Some_2 (heap st1) env ltac:(lia)) as [fr Hfr].
        rewrite Hfr. split; [|split; [|split]]; cbn [fst snd heap].
        - apply store_ok_setitem; [exact Hok1|exact Hfr|now apply Hv1].
        - rewrite length_insert. lia.
        - done.
        - now intros a [= <-]. }
      destruct (head_is x0 "lambda").
      { destruct rest as [|parms [|body [|? ?]]]; try sound_same.
        split; [|split; [|split]]; cbn [fst snd heap new_procedure];
          [exact Hok|lia|done|].
        intros a [= <-]. exact Henv. }
      apply (bind_sound value_ok); [now apply IH|]. intros proc st1 Hp.
      destruct (IH x0 env st Hok Henv) as (Hok1 & Hlen1 & _ & Hv1).
      rewrite Hp in Hok1, Hlen1, Hv1. cbn [fst snd] in *.
      apply (bind_sound (fun k => Forall (value_ok k)));
        [apply (mapM_sound _ env); [intros x st0; apply IH|exact Hok1|lia]|].
      intros args st2 Ha.
      destruct (mapM_sound (fun exp => eval n exp env) env rest
                  (fun x st0 => IH x env st0) st1 Hok1 ltac:(lia))
        as (Hok2 & Hlen2 & _ & Hv2).
      rewrite Ha in Hok2, Hlen2, Hv2. cbn [fst snd] in *.
      apply call_sound; [exact Hhost|exact IH|exact Hok2| |now apply Hv2].
      apply (value_ok_mono (length (heap st1))); [exact Hlen2|now apply Hv1].
Qed.

Lemma dict_update_Forall (P : value -> Prop) kvs :
  Forall (fun kv => P kv.2) kvs ->
  forall d, map_Forall (fun _ v => P v) d ->
    map_Forall (fun _ v => P v) (dict_update d kvs).
Proof.
  unfold dict_update. induction 1 as [|kv kvs Hkv _ IH]; intros d Hd; [exact Hd|].
  cbn [fold_left]. apply IH. now apply map_Forall_insert_2.
Qed.

Lemma init_store_ok : host_returns_data -> store_ok (heap init_state).
Proof.
  intros (_ & _ & Hmath) l fr Hl. cbn [heap init_state] in Hl.
  apply list_lookup_singleton_Some in Hl as [-> <-].
  split; [discriminate|]. unfold standard_env. cbn [vars].
  apply dict_update_Forall.
  - unfold prim_table. repeat constructor.
  - apply dict_update_Forall; [|apply map_Forall_empty].
    eapply Forall_impl; [exact Hmath|]. intros kv. apply data_value_ok.
Qed.

Lemma store_ok_chain h :
  store_ok h ->
  forall l, (l < length h)%nat -> exists frs, chain h l frs /\ (length frs <= S l)%nat.
Proof.
  intros Hok l. induction l as [l IH] using lt_wf_ind. intros Hl.
  destruct (lookup_lt_is_Some_2 h l Hl) as [fr Hfr].
  destruct (outer fr) as [o|] eqn:Ho.
  - destruct (Hok _ _ Hfr) as [Hout _]. specialize (Hout o Ho).
    destruct (IH o Hout ltac:(lia)) as (frs & Hc & Hlen).
    exists (fr :: frs). split; [exact (chain_outer _ _ _ _ _ Hfr Ho Hc)|].
    cbn [length]. lia.
  - exists [fr]. split; [now apply chain_root|]. cbn [length]. lia.
Qed.

Lemma Env_find_terminates n h l s :
  store_ok h -> (l < length h)%nat -> (l < n)%nat ->
  Env_find n h l s <> OutOfFuel.
Proof.
  intros Hok. revert l. induction n as [|n IH]; intros l Hl Hn; [lia|].
  cbn [Env_find]. unfold loc in *.
  destruct (lookup_lt_is_Some_2 h l Hl) as [fr Hfr]. rewrite Hfr.
  destruct (vars fr !! s); [done|].
  destruct (outer fr) as [o|] eqn:Ho; [|done].
  destruct (Hok _ _ Hfr) as [Hout _]. specialize (Hout o Ho).
  apply IH; lia.
Qed.

(** X14.  On a host whose operations return data, a run keeps its store
    well formed.  The store of a new interpreter is well formed; evaluating
    any expression in a frame of a well-formed store leaves a well-formed
    store that is no shorter, never meets a location without a frame, and
    returns a value whose captured environment, if it is a Procedure, is a
    frame of the store.  In a well-formed store the [outer] link of a frame
    points to a frame allocated before it, so the links form no cycle: every
    frame has a finite chain to a root, no longer than its location plus
    one, and [Env.find] started at the frame [l] returns within [l + 1]
    calls. *)
Theorem store_invariant :
  host_returns_data ->
  store_ok (heap init_state) /\
  (forall n x env st, store_ok (heap st) -> (env < length (heap st))%nat ->
     sound_outcome st (eval n x env st)) /\
  (forall h l, store_ok h -> (l < length h)%nat ->
     (exists frs, chain h l frs /\ (length frs <= S l)%nat) /\
     (forall n s, (l < n)%nat -> Env_find n h l s <> OutOfFuel)).
Proof.
  intros Hhost. split; [now apply init_store_ok|]. split.
  - intros n. now apply eval_sound.
  - intros h l Hok Hl. split; [now apply store_ok_chain|].
    intros n s. now apply Env_find_terminates.
Qed.

End StoreInvariant.

(** * Closed examples on the reference host *)

Section Examples.
Existing Instance Binary64.host.

(** C1, the claim as the spec words it, refuted: reading the six tokens
    does not fail; it returns the list and leaves the stray [)]. *)
Lemma read_stray_parenthesis_not_an_error :
  read_from_tokens ["("; "print"; "a"; "10"; ")"; ")"]
    = Ok (List [Sym "print"; Sym "a"; Int 10], [")"]) /\
  read_from_tokens ["("; "print"; "a"; "10"; ")"; ")"]
    <> Raise (SyntaxError "unexpected )").
Proof. split; [reflexivity | discriminate]. Qed.

(** C1: the amended statement at the tokens [) a]. *)
Lemma read_closing_parenthesis_witness :
  read_from_tokens [")"; "a"] = Raise (SyntaxError "unexpected )").
Proof.
  exact (proj2 (proj1 (proj2 read_closing_parenthesis) [")"; "a"])
           (ex_intro _ ["a"] eq_refl)).
Defined.

(** C3: the tokens [( define a] stop inside the list that [( define a 1 )]
    completes, and reading them raises IndexError. *)
Lemma read_exhausted_tokens_witness :
  read_from_tokens ["("; "define"; "a"]
    = Raise (IndexError "list index out of range").
Proof.
  refine (proj1 (proj2 (proj2 (proj2 read_exhausted_tokens)))
            ["("; "define"; "a"] ["1"; ")"]
            (List [Sym "define"; Sym "a"; Int 1]) [] _ _ _).
  - discriminate.
  - reflexivity.
  - cbn. lia.
Defined.

(** C10: the tokens of ["(a) b"] split into [( a )] and the unread [b]. *)
Lemma parse_reads_shortest_prefix_witness :
  exists pre, ["("; "a"; ")"; "b"] = pre ++ ["b"] /\ pre <> [] /\
    (forall rest', read_from_tokens (pre ++ rest') = Ok (List [Sym "a"], rest')) /\
    (forall pre' ext, pre = pre' ++ ext -> ext <> [] ->
       forall e' r, read_from_tokens pre' <> Ok (e', r)).
Proof.
  exact (proj1 parse_reads_shortest_prefix ["("; "a"; ")"; "b"]
           (List [Sym "a"]) ["b"] eq_refl).
Defined.

(** C8: the classification at the tokens ["6"], ["4.1"] and ["and"]. *)
Lemma tokenize_and_atom_witness :
  atom "6" = Int 6 /\
  atom "4.1" = Float (float_of_literal (LitDec false 41 (-1))) /\
  atom "and" = Sym "and".
Proof.
  split; [|split].
  - exact (proj1 (proj2 (proj2 (proj2 (proj2 tokenize_and_atom)))) "6" 6 eq_refl).
  - exact (proj1 (proj2 (proj2 (proj2 (proj2 (proj2 tokenize_and_atom)))))
             "4.1" (LitDec false 41 (-1)) eq_refl eq_refl).
  - exact (proj1 (proj2 (proj2 (proj2 (proj2 (proj2 (proj2 tokenize_and_atom))))))
             "and" eq_refl eq_refl).
Defined.

(** C2: [(print r 10)] in a new interpreter binds [r] to 10 in the global
    frame and writes nothing. *)
Lemma print_is_define_witness :
  eval 2 (List [Sym "print"; Sym "r"; Int 10]) global_env init_state
    = (Ok VNone,
       State [Frame (<["r" := VInt 10]> (vars standard_env)) None] [] 0).
Proof.
  exact (proj2 (proj2 (proj2
           (print_is_define 1 (Sym "r") (Int 10) global_env init_state)))
           "r" (VInt 10) init_state standard_env eq_refl eq_refl).
Defined.

(** A store with two frames: the frame 1 binds [y] and has the frame 0,
    which binds [x] and [y], as [outer]. *)
Definition two_frames : state :=
  State [Frame (<["y" := VInt 1]> (<["x" := VInt 0]> ∅)) None;
         Frame (<["y" := VInt 2]> ∅) (Some 0%nat)] [] 0.

Lemma two_frames_chain :
  chain (heap two_frames) 1%nat
    [Frame (<["y" := VInt 2]> ∅) (Some 0%nat);
     Frame (<["y" := VInt 1]> (<["x" := VInt 0]> ∅)) None].
Proof.
  apply (chain_outer _ 1%nat _ 0%nat); [reflexivity|reflexivity|].
  now apply chain_root.
Defined.

(** C5: in the frame 1 of [two_frames], [z] is unbound, [y] is found in the
    frame 1 itself and [x] in the outer frame. *)
Lemma symbol_resolution_witness :
  eval 3 (Sym "z") 1%nat two_frames
    = (Raise (AttributeError "This arithmetic symbol does not exist"), two_frames) /\
  eval 3 (Sym "y") 1%nat two_frames = (Ok (VInt 2), two_frames) /\
  eval 3 (Sym "x") 1%nat two_frames = (Ok (VInt 0), two_frames).
Proof.
  split; [|split].
  - refine (proj1 (symbol_resolution two_frames 1%nat _ "z" two_frames_chain) _ 3%nat _).
    + intros fr Hin. apply elem_of_cons in Hin as [->|Hin]; [reflexivity|].
      apply elem_of_cons in Hin as [->|Hin]; [reflexivity|].
      now apply elem_of_nil in Hin.
    + cbn. lia.
  - refine (proj2 (symbol_resolution two_frames 1%nat _ "y" two_frames_chain)
              [] _ _ (VInt 2) eq_refl _ eq_refl 3%nat _).
    + intros f Hin. now apply elem_of_nil in Hin.
    + cbn. lia.
  - refine (proj2 (symbol_resolution two_frames 1%nat _ "x" two_frames_chain)
              [_] _ [] (VInt 0) eq_refl _ eq_refl 3%nat _).
    + intros f Hin. apply elem_of_cons in Hin as [->|Hin]; [reflexivity|].
      now apply elem_of_nil in Hin.
    + cbn. lia.
Defined.

(** C7, the claim as the spec words it, refuted: evaluating
    [(define a (if (define b 1) 2 3))] in a new interpreter also changes the
    binding of [b] in the current frame, from none to 1. *)
Lemma define_changes_another_binding :
  binding init_state global_env "b" = None /\
  (eval 4 (List [Sym "define"; Sym "a";
                 List [Sym "if"; List [Sym "define"; Sym "b"; Int 1]; Int 2; Int 3]])
          global_env init_state).1 = Ok VNone /\
  binding
    (eval 4 (List [Sym "define"; Sym "a";
                   List [Sym "if"; List [Sym "define"; Sym "b"; Int 1]; Int 2; Int 3]])
            global_env init_state).2 global_env "b" = Some (VInt 1) /\
  "b" <> "a".
Proof. repeat split; try reflexivity. discriminate. Qed.

(** C7: the amended statement at [(define y 2)] evaluated in the frame 1 of
    [two_frames]: the frame 0 keeps its binding of [y]. *)
Lemma define_writes_current_frame_witness :
  heap (eval 2 (List [Sym "define"; Sym "y"; Int 2]) 1%nat two_frames).2 !! 0%nat
    = Some (Frame (<["y" := VInt 1]> (<["x" := VInt 0]> ∅)) None).
Proof.
  refine (proj2 (proj2 (define_writes_current_frame 1%nat "y" (Int 2) 1%nat two_frames))
            _ _ _ 0%nat _ _ eq_refl).
  - apply surjective_pairing.
  - discriminate.
Defined.

(** C9, the claim as the spec words it, refuted: with [y] defined as 5 in
    the global frame, [((lambda (x y) y) 1)] leaves the parameter [y]
    without argument, and the reference to it in the body does not fail: it
    evaluates to 5. *)
Lemma excess_parameter_resolves_outward :
  (eval 4 (List [List [Sym "lambda"; List [Sym "x"; Sym "y"]; Sym "y"]; Int 1])
          global_env
          (eval 2 (List [Sym "define"; Sym "y"; Int 5]) global_env init_state).2).1
  = Ok (VInt 5).
Proof. reflexivity. Qed.

(** C9: the amended statement at two parameters and one argument. *)
Lemma procedure_arity_unchecked_witness :
  dict_update (∅ : gmap string value) (zip ["x"; "y"] [VInt 1]) !! "x"
    = Some (VInt 1) /\
  dict_update (∅ : gmap string value) (zip ["x"; "y"] [VInt 1]) !! "y" = None.
Proof.
  split.
  - refine (proj1 (proj2 (proj2
              (procedure_arity_unchecked (eval 1) 0%nat ["x"; "y"] (Sym "y") global_env
                 [VInt 1] init_state))) _ 0%nat "x" (VInt 1) eq_refl eq_refl).
    apply NoDup_cons. split; [|apply NoDup_singleton].
    intros Hin. apply elem_of_cons in Hin as [Hin|Hin]; [discriminate|].
    now apply elem_of_nil in Hin.
  - refine (proj1 (proj2 (proj2 (proj2
              (procedure_arity_unchecked (eval 1) 0%nat ["x"; "y"] (Sym "y") global_env
                 [VInt 1] init_state))) "y" _)).
    intros Hin. apply elem_of_cons in Hin as [Hin|Hin]; [discriminate|].
    now apply elem_of_nil in Hin.
Defined.

(** C4, the claim as the spec words it, refuted.  For the float 1.0,
    [((repeat ... twice) 1.0)] with ten applications of [repeat] evaluates
    to [inf], not to [1.0 * 2 ^ (2 ^ 10)]: the host's own product of 1.0 and
    that integer raises OverflowError.  And [((lambda (x x) x) 1 2)] is 2:
    the first parameter is not bound to the first argument. *)
Lemma float_doubling_overflows :
  parse "1.0" = Ok (Float (float_of_literal (LitDec false 10 (-1)))) /\
  (eval 40 (List [repeated 10; Float (float_of_literal (LitDec false 10 (-1)))])
     global_env defs_state).1 = Ok (VFloat (S754_infinity false)) /\
  binop OpMul (VFloat (float_of_literal (LitDec false 10 (-1)))) (VInt (2 ^ 2 ^ 10))
    = Raise OverflowError /\
  parse "((lambda (x x) x) 1 2)"
    = Ok (List [List [Sym "lambda"; List [Sym "x"; Sym "x"]; Sym "x"]; Int 1; Int 2]) /\
  (eval 4 (List [List [Sym "lambda"; List [Sym "x"; Sym "x"]; Sym "x"]; Int 1; Int 2])
     global_env init_state).1 = Ok (VInt 2).
Proof. repeat split; vm_compute; reflexivity. Qed.

(** C4: on the reference host, doubling the float 0.1 twice gives 0.4. *)
Lemma repeat_twice_power_witness :
  exists st',
    evaluates (List [repeated 1; Float (float_of_literal (LitDec false 1 (-1)))])
      global_env defs_state
      (VFloat (float_of_literal (LitDec false 4 (-1)))) st'.
Proof.
  exact (proj1 (proj2 (proj2 (proj2 (proj2 (proj2 repeat_twice_power)))))
           1%nat _ _ eq_refl).
Defined.

(** C6, the claim as the spec words it, refuted: [and] is not the boolean
    conjunction.  The operands 2 and 1 are both true, and [(and 2 1)] is 0,
    which is false; [(or 2 1)] is 3, neither of the operands. *)
Lemma and_is_bitwise :
  truthy (VInt 2) = true /\ truthy (VInt 1) = true /\
  parse "(and 2 1)" = Ok (List [Sym "and"; Int 2; Int 1]) /\
  (eval 3 (List [Sym "and"; Int 2; Int 1]) global_env init_state).1 = Ok (VInt 0) /\
  truthy (VInt 0) = false /\
  (eval 3 (List [Sym "or"; Int 2; Int 1]) global_env init_state).1 = Ok (VInt 3).
Proof. repeat split; vm_compute; reflexivity. Qed.

(** C6: the sequencing equation at [(or 1 0)] in a new interpreter. *)
Lemma boolean_primitives_are_eager_witness :
  eval 3 (List [Sym "or"; Int 1; Int 0]) global_env init_state =
    (let* proc := eval 2 (Sym "or") global_env in
     let* va := eval 2 (Int 1) global_env in
     let* vb := eval 2 (Int 0) global_env in
     call (eval 2) proc [va; vb]) init_state.
Proof.
  exact (proj1 boolean_primitives_are_eager 2%nat "or" (Int 1) (Int 0)
           global_env init_state (or_intror eq_refl)).
Defined.

(** X2: the answer of [(and 1 0)] with the budget 3 is the answer with the
    budget 7. *)
Lemma eval_more_fuel_witness :
  eval 7 (List [Sym "and"; Int 1; Int 0]) global_env init_state
    = (Ok (VInt 0), init_state).
Proof.
  refine (eval_more_fuel 3 7 _ _ _ _ _ _ _ _); [lia|reflexivity|discriminate].
Defined.

(** X3: a closure over the frame 0 of [two_frames] with the parameter [x]
    and the body [y] returns the 1 that the frame 0 binds [y] to. *)
Lemma closure_reads_live_binding_witness :
  exists st',
    calls (VProc 0 (List (Sym <$> ["x"])) (Sym "y") 0%nat) [VInt 7] two_frames
      (VInt 1) st'.
Proof.
  refine (proj1 closure_reads_live_binding 0%nat ["x"] "y" 0%nat [VInt 7] two_frames
            _ (VInt 1) _ eq_refl eq_refl).
  intros Hin. apply elem_of_cons in Hin as [Hin|Hin]; [discriminate|].
  now apply elem_of_nil in Hin.
Defined.

(** X4: the tokens of a list rendered with single spaces. *)
Lemma tokenize_composes_witness :
  tokenize (unwords ["("; "*"; "a"; "3"; ")"]) = ["("; "*"; "a"; "3"; ")"].
Proof.
  refine (proj1 (proj2 (proj2 (proj2 tokenize_composes))) _ _).
  repeat apply Forall_cons_2; try apply Forall_nil_2;
    first [now left | now right; left | now right; right].
Defined.

(** X5: the reader stops after the list [(a)] and leaves the stray [)]. *)
Lemma reader_grammar_witness :
  read_from_tokens (flatten (TList [TAtom "a"]) ++ [")"])
    = Ok (tree_sexp (TList [TAtom "a"]), [")"]).
Proof.
  refine (proj1 reader_grammar (TList [TAtom "a"]) [")"] _). reflexivity.
Defined.

(** X6: the program [( define a 10 )] of the unit tests. *)
Lemma parse_rendered_tree_witness :
  tokenize (unwords (flatten (TList [TAtom "define"; TAtom "a"; TAtom "10"])))
    = flatten (TList [TAtom "define"; TAtom "a"; TAtom "10"]) /\
  parse (unwords (flatten (TList [TAtom "define"; TAtom "a"; TAtom "10"])))
    = Ok (tree_sexp (TList [TAtom "define"; TAtom "a"; TAtom "10"])).
Proof.
  refine (parse_rendered_tree (TList [TAtom "define"; TAtom "a"; TAtom "10"]) _).
  reflexivity.
Defined.

(** X7: the Symbol [a] of the program [(define a 10)]. *)
Lemma parsed_symbols_witness :
  "a" <> "" /\ atom_chars "a" = true /\ py_int "a" = None /\
  py_float_literal "a" = None.
Proof.
  refine (proj1 (proj2 parsed_symbols) "(define a 10)"
            (List [Sym "define"; Sym "a"; Int 10]) "a" _ _).
  - reflexivity.
  - cbn. apply list_elem_of_further, list_elem_of_here.
Defined.

(** X9: in [two_frames], [x] looked up from the frame 1 is found in the
    frame 0. *)
Lemma Env_find_first_binding_witness :
  exists fr v, heap two_frames !! 0%nat = Some fr /\ vars fr !! "x" = Some v /\
    lookup_var 2 1%nat "x" two_frames = (Ok v, two_frames).
Proof.
  refine (proj1 (proj2 (proj2 Env_find_first_binding)) 2%nat two_frames 1%nat "x"
            0%nat _).
  reflexivity.
Defined.

(** X10: [(define y 5)] in the frame 1 of [two_frames]. *)
Lemma define_then_lookup_witness :
  exists st2,
    eval 2 (List [Sym "define"; Sym "y"; Int 5]) 1%nat two_frames = (Ok VNone, st2) /\
    (forall m, (2 <= m)%nat -> eval m (Sym "y") 1%nat st2 = (Ok (VInt 5), st2)) /\
    (forall m l s', s' <> "y" ->
       (eval m (Sym s') l st2).1 = (eval m (Sym s') l two_frames).1).
Proof.
  refine (define_then_lookup 1 "y" (Int 5) 1%nat two_frames (VInt 5) two_frames _ _).
  - reflexivity.
  - eexists. reflexivity.
Defined.

(** X11: an [if] with one operand. *)
Lemma malformed_forms_raise_witness :
  eval 1 (List [Sym "if"; Int 1]) global_env init_state
    = (Raise ValueError, init_state).
Proof.
  refine (proj1 (proj2 (malformed_forms_raise 0 global_env init_state)) [Int 1] _).
  discriminate.
Defined.

(** X12: a Procedure with the parameters [x] and [y] and the body [y],
    called in [two_frames], where an outer frame binds [y] too. *)
Lemma parameter_shadows_witness :
  calls (VProc 0 (List (Sym <$> ["x"; "y"])) (Sym "y") 1%nat) [VInt 7; VInt 8]
    two_frames (VInt 8)
    (State (heap two_frames
              ++ [Frame (dict_update ∅ (zip ["x"; "y"] [VInt 7; VInt 8])) (Some 1%nat)])
           (output two_frames) (next_id two_frames)).
Proof.
  refine (parameter_shadows 0 ["x"; "y"] 1%nat [VInt 7; VInt 8] two_frames 1%nat "y"
            (VInt 8) _ eq_refl eq_refl).
  repeat constructor.
  - intros Hin. apply list_elem_of_singleton in Hin. discriminate.
  - intros Hin. now apply elem_of_nil in Hin.
Defined.

(** X13: [+] in the standard environment. *)
Lemma standard_env_bindings_witness :
  vars standard_env !! "+" = Some (VPrim OpAdd).
Proof.
  refine (proj1 standard_env_bindings "+" (VPrim OpAdd) _).
  apply list_elem_of_here.
Defined.

Lemma binary64_to_float v :
  match Binary64.to_float v with Ok _ | Raise _ => True | OutOfFuel | Stuck => False end.
Proof.
  unfold Binary64.to_float, Binary64.of_int. repeat case_match; done.
Qed.

Lemma binary64_compare_values a b :
  match Binary64.compare_values a b with
  | Ok _ | Raise _ => True
  | OutOfFuel | Stuck => False
  end.
Proof.
  unfold Binary64.compare_values. repeat case_match; done.
Qed.

Lemma binary64_arith f a b : data_answer (Binary64.arith f a b).
Proof.
  unfold Binary64.arith.
  pose proof (binary64_to_float a) as Ha. pose proof (binary64_to_float b) as Hb.
  destruct (Binary64.to_float a), (Binary64.to_float b); done.
Qed.

Lemma binary64_test ok a b : data_answer (Binary64.test ok a b).
Proof.
  unfold Binary64.test. pose proof (binary64_compare_values a b) as Hc.
  destruct (Binary64.compare_values a b); done.
Qed.

Lemma binary64_returns_data : host_returns_data.
Proof.
  split; [|split].
  - intros p a b. cbn [host_op Binary64.host].
    destruct p; cbn [Binary64.op];
      try apply binary64_arith; try apply binary64_test; try exact I.
    + destruct (as_int a), (as_int b); try (destruct (_ =? _)%Z); try exact I;
        repeat case_match; try done; apply binary64_arith.
    + destruct (Binary64.compare_values a b); reflexivity.
  - intros h args. cbn [host_call Binary64.host]. unfold Binary64.call_math.
    destruct args as [|a [|b args]]; try exact I.
    pose proof (binary64_to_float a) as Ha.
    destruct (Binary64.to_float a); try done.
    repeat case_match; done.
  - repeat constructor.
Qed.

(** X14: defining the identity Procedure in a new interpreter on the
    reference host. *)
Lemma store_invariant_witness :
  sound_outcome init_state
    (eval 3 (List [Sym "define"; Sym "id"; List [Sym "lambda"; List [Sym "x"]; Sym "x"]])
       global_env init_state).
Proof.
  refine (proj1 (proj2 (store_invariant binary64_returns_data)) 3%nat _ global_env
            init_state (proj1 (store_invariant binary64_returns_data)) _).
  exact (le_n 1).
Defined.

(** The host's [int] and [float] strip the whitespace around a numeral, so
    [atom], handed such a token directly, reads the number and not a
    Symbol; the separator FS is not stripped, and whitespace inside a token
    is not accepted.  (No token of [tokenize] has whitespace in it.) *)
Lemma literals_strip_whitespace :
  atom " 12 " = Int 12 /\
  atom " 4.1 " = Float (float_of_literal (LitDec false 41 (-1))) /\
  atom (String (Ascii.ascii_of_N 160) "12") = Int 12 /\
  py_int (String (Ascii.ascii_of_N 28) "12") = None /\
  py_float_literal (String (Ascii.ascii_of_N 28) "12") = None /\
  atom "1 2" = Sym "1 2" /\
  atom "+ 12" = Sym "+ 12".
Proof. repeat split; vm_compute; reflexivity. Qed.

(** On the reference host a quotient converts both operands before it
    tests the divisor: a dividend that is no number raises TypeError even
    over a zero divisor, and a number over 0.0 raises ZeroDivisionError. *)
Lemma float_division_converts_first :
  binop OpTruediv (VStr "a") (VFloat (S754_zero false)) = Raise TypeError /\
  binop OpTruediv (VInt 1) (VFloat (S754_zero false)) = Raise ZeroDivisionError /\
  binop OpTruediv (VFloat (S754_zero false)) (VInt 0) = Raise ZeroDivisionError /\
  binop OpTruediv (VInt 1) (VInt 0) = Raise ZeroDivisionError /\
  binop OpTruediv (VInt 1) (VInt 2)
    = Ok (VFloat (float_of_literal (LitDec false 5 (-1)))).
Proof. repeat split; vm_compute; reflexivity. Qed.

End Examples.
